(** * JuegoMarcianos: the game-state core of [script.js] and of its simpler variant

    The development embeds the two JavaScript sources shallowly:
    - numbers are exact rationals ([Q]); comparisons are the boolean tests of
      the source, and numeric facts are stated up to [Qeq] ([==]);
    - [Enemy] objects live in a store and the [enemies] array holds
      references, so that the [e == element] test of [find_first] is
      reference equality, as in JavaScript;
    - the two handlers ([mouseclick], [timeout]) are functions on the game
      object, and the host event loop is a transition function on a world
      made of the store, the game and the number of pending timeouts.

    Painting only reads the game: the methods of [Canvas] and [Enemy.draw]
    are the lists of operations they perform on the 2D context. The border
    colour of the canvas element is left out.

    The two lines of [timeout] that update the difficulty are restated
    with binary64 rounding in [Binary64]: the difficulty curve is proved
    for the values the code computes, and compared with the exact ones. *)

From Stdlib Require Import QArith Qabs Lqa ZArith Lia Ascii String.
From stdpp Require Import base list pretty.

Local Open Scope Q_scope.

(** ** Data model *)

(** The object literals [{x: .., y: ..}] and [{w: .., h: ..}]. *)
Record XY := { x : Q; y : Q }.
Record WH := { w : Q; h : Q }.

(** [class Rect]. *)
Record Rect := { xy : XY; wh : WH }.

(** [class Enemy] (the drawing context [ctx] is not part of the model). *)
Record Enemy := { rect : Rect; img : string }.

(** The part of an [HTMLElement] the code reads: its offsets, its offset
    parent ([None] is [null]) and, for the canvas, its size. *)
#[warnings="-register-all"]
Inductive Element := {
  offsetLeft : Q;
  offsetTop : Q;
  offsetParent : option Element;
  width : Q;
  height : Q
}.

(** [class Canvas]: the wrapped element. *)
Record Canvas := { element : Element }.

(** [class Player]. *)
Record Player := { points : Z }.

(** References to [Enemy] objects, and the store they live in: [obj] gives
    the object at a reference and [next] is the next unused reference. *)
Definition ref := nat.
Record Store := { obj : ref -> Enemy; next : ref }.

(** [class Game]; [enemies] is the array of references, in spawn order. *)
Record Game := {
  canvas : Canvas;
  enemies : list ref;
  player : Player;
  difficulty : Q;
  state : bool
}.

(** The two fields of a click [Event] that the handler reads. *)
Record MouseEvent := { clientX : Q; clientY : Q }.

(** ** [Rect.hasCollided] *)

Definition hasCollided (this : Rect) (p : XY) : bool :=
  if Qle_bool (x (xy this)) (x p) && Qle_bool (x p) (x (xy this) + w (wh this))
     && Qle_bool (y (xy this)) (y p) && Qle_bool (y p) (y (xy this) + h (wh this))
  then true
  else false.

(** ** [Enemy.of], [Player.updateScore] *)

(** [new Enemy(..)] allocates the object at the next unused reference. *)
Definition Enemy_of (st : Store) (r : Rect) (i : string) : Store * ref :=
  ({| obj := fun a => if Nat.eqb a (next st) then {| rect := r; img := i |} else obj st a;
      next := S (next st) |},
   next st).

Definition updateScore (this : Player) : Player :=
  {| points := points this + 1 |}.

(** ** [element_coords] *)

(** The [while (element.offsetParent)] loop, with its two accumulators. *)
Fixpoint element_coords_loop (el : Element) (ax ay : Q) : XY :=
  match offsetParent el with
  | Some parent => element_coords_loop parent (ax + offsetLeft el) (ay + offsetTop el)
  | None => {| x := ax; y := ay |}
  end.

Definition element_coords (el : Element) : XY := element_coords_loop el 0 0.

(** ** [find_first] and [Array.prototype.splice] *)

(** [array.findIndex(e => e == element)]: the index of the first reference
    equal to [element], or [-1]. *)
Definition find_first (array : list ref) (element : ref) : Z :=
  match list_find (fun e => e = element) array with
  | Some (i, _) => Z.of_nat i
  | None => (-1)%Z
  end.

(** [array.splice(start, deleteCount)], for the array left behind: a
    negative [start] counts from the end, [start] is clamped to the length
    and [deleteCount] to what is left after [start]. *)
Definition splice {A : Type} (array : list A) (start deleteCount : Z) : list A :=
  let len := Z.of_nat (length array) in
  let from := if (start <? 0)%Z then Z.max (len + start) 0 else Z.min start len in
  let count := Z.min (Z.max deleteCount 0) (len - from) in
  take (Z.to_nat from) array ++ drop (Z.to_nat (from + count)) array.

(** ** [mouseclick] of [script.js] *)

(** The click point in canvas coordinates, as computed in the loop body. *)
Definition click_xy (el : Element) (e : MouseEvent) : XY :=
  let canvasxy := element_coords el in
  {| x := clientX e - x canvasxy; y := clientY e - y canvasxy |}.

(** The [for] loop: [i] and [collided] are the loop variables, [game] is
    the global game object, and [fuel] bounds the number of tests of the
    loop condition. *)
Fixpoint mouseclick_loop (fuel : nat) (st : Store) (e : MouseEvent)
    (i : nat) (collided : bool) (game : Game) : Game :=
  match fuel with
  | O => game
  | S fuel' =>
    if bool_decide (i < length (enemies game))%nat && negb collided && state game then
      match enemies game !! i with
      | Some enemy =>
        let xy := click_xy (element (canvas game)) e in
        if hasCollided (rect (obj st enemy)) xy then
          let game' :=
            {| canvas := canvas game;
               enemies := splice (enemies game) (find_first (enemies game) enemy) 1;
               player := updateScore (player game);
               difficulty := difficulty game;
               state := state game |} in
          mouseclick_loop fuel' st e (S i) true game'
        else mouseclick_loop fuel' st e (S i) collided game
      | None => game (* not taken: [i] is below the length *)
      end
    else game
  end.

(** The loop condition is tested at most once more than there are enemies. *)
Definition mouseclick (st : Store) (e : MouseEvent) (game : Game) : Game :=
  mouseclick_loop (S (length (enemies game))) st e 0 false game.

(** ** [timeout] of [script.js] *)

Definition Qlt_bool (a b : Q) : bool := negb (Qle_bool b a).

(** [rx] and [ry] are the two values returned by [Math.random()]. The
    result is the store, the game, and the delay handed to [setTimeout]
    when the function reschedules itself. *)
Definition timeout (rx ry : Q) (st : Store) (game : Game) : Store * Game * option Q :=
  let rect :=
    {| xy := {| x := rx * (width (element (canvas game)) - 50);
                y := ry * (height (element (canvas game)) - 50) |};
       wh := {| w := 50; h := 50 |} |} in
  let '(st', enemy) := Enemy_of st rect "img/enemy.png" in
  let enemies' := enemies game ++ [enemy] in
  let difficulty' :=
    if Qlt_bool 100 (1000 * difficulty game * 0.98)
    then difficulty game * 0.98
    else difficulty game in
  if bool_decide (length enemies' < 20)%nat then
    (st',
     {| canvas := canvas game; enemies := enemies'; player := player game;
        difficulty := difficulty'; state := state game |},
     Some (1000 * difficulty'))
  else
    (st',
     {| canvas := canvas game; enemies := enemies'; player := player game;
        difficulty := difficulty'; state := false |},
     None).

(** ** The simpler variant *)

Module Simple.

(** Its globals [canvas] and [enemies]. *)
Record Globals := { canvas : Canvas; enemies : list ref }.

Fixpoint mouseclick_loop (fuel : nat) (st : Store) (e : MouseEvent)
    (i : nat) (collided : bool) (g : Globals) : Globals :=
  match fuel with
  | O => g
  | S fuel' =>
    if bool_decide (i < length (enemies g))%nat && negb collided then
      match enemies g !! i with
      | Some enemy_i =>
        let xy := click_xy (element (canvas g)) e in
        if hasCollided (rect (obj st enemy_i)) xy then
          mouseclick_loop fuel' st e (S i) true
            {| canvas := canvas g;
               enemies := splice (enemies g) (find_first (enemies g) enemy_i) 1 |}
        else mouseclick_loop fuel' st e (S i) collided g
      | None => g (* not taken: [i] is below the length *)
      end
    else g
  end.

Definition mouseclick (st : Store) (e : MouseEvent) (g : Globals) : Globals :=
  mouseclick_loop (S (length (enemies g))) st e 0 false g.

(** The body of the [setInterval] callback that spawns an enemy. *)
Definition spawn (rx ry : Q) (st : Store) (g : Globals) : Store * Globals :=
  let rect :=
    {| xy := {| x := rx * (width (element (canvas g)) - 50);
                y := ry * (height (element (canvas g)) - 50) |};
       wh := {| w := 50; h := 50 |} |} in
  let '(st', enemy) := Enemy_of st rect "img/enemy.png" in
  (st', {| canvas := canvas g; enemies := enemies g ++ [enemy] |}).

End Simple.

(** ** The host event loop *)

(** What the event loop knows: the store, the game object and the number
    of pending [setTimeout(timeout, ..)] callbacks. *)
Record World := { store : Store; game : Game; timers : nat }.

(** The two kinds of events that reach the game: a click, and the firing
    of a pending timeout (with the two [Math.random()] draws it makes). *)
Inductive Event :=
| Click (e : MouseEvent)
| Timeout (rx ry : Q).

(** One event. A timeout can fire only if one is pending; firing consumes
    it, and [timeout] may queue a new one. *)
Definition step (wd : World) (ev : Event) : option World :=
  match ev with
  | Click e =>
    Some {| store := store wd; game := mouseclick (store wd) e (game wd);
            timers := timers wd |}
  | Timeout rx ry =>
    match timers wd with
    | O => None
    | S pending =>
      let '(st', game', again) := timeout rx ry (store wd) (game wd) in
      Some {| store := st'; game := game';
              timers := match again with Some _ => S pending | None => pending end |}
    end
  end.

Fixpoint run (wd : World) (evs : list Event) : option World :=
  match evs with
  | [] => Some wd
  | ev :: evs' =>
    match step wd ev with
    | Some wd' => run wd' evs'
    | None => None
    end
  end.

(** An object standing for the content of unallocated store cells. *)
Definition no_enemy : Enemy :=
  {| rect := {| xy := {| x := 0; y := 0 |}; wh := {| w := 0; h := 0 |} |}; img := "" |}.

(** The world once the script is loaded and the page has fired [onload]:
    [game = new Game(new Canvas(el), [], new Player())], and one timeout
    queued by [init]. ([init] is installed as [window.onload = game.init],
    so it runs with [this] bound to the window: its assignments do not
    touch [game], which keeps the fields its constructor set.) *)
Definition new_Game (c : Canvas) (es : list ref) (p : Player) : Game :=
  {| canvas := c; enemies := es; player := p; difficulty := 1; state := true |}.

Definition init (el : Element) : World :=
  {| store := {| obj := fun _ => no_enemy; next := 0%nat |};
     game := new_Game {| element := el |} [] {| points := 0 |};
     timers := 1 |}.

(** [Math.random()] returns a value in [[0, 1)]. *)
Definition random_ok (ev : Event) : Prop :=
  match ev with
  | Click _ => True
  | Timeout rx ry => 0 <= rx /\ rx < 1 /\ 0 <= ry /\ ry < 1
  end.

(** ** Painting: [class Canvas], [Enemy.draw]

    The 2D context is write-only for the code, so a method that paints is
    the list of the operations it performs on the context, in order. *)

(** A value given to [fillStyle]: a literal such as ["#fff"], or the string
    ["rgb(" + r + ", " + g + ", " + b + ")"], kept as its three numbers. *)
Inductive Colour :=
| Css (s : string)
| Rgb (r g b : Q).

(** The operations on the context: the assignments to [fillStyle] and
    [font], and the calls of [fillRect], [fillText] and [drawImage]. *)
Inductive Op :=
| SetFillStyle (c : Colour)
| SetFont (f : string)
| FillRect (rx ry rw rh : Q)
| FillText (text : string) (tx ty : Q)
| DrawImage (src : string) (dx dy dw dh : Q).

(** [Canvas.refresh]. *)
Definition refresh (this : Canvas) : list Op :=
  [SetFillStyle (Css "#fff");
   FillRect 0 0 (width (element this)) (height (element this))].

(** [Canvas.mapColor]; [game.enemies.length] is an integer. *)
Definition mapColor (game : Game) : Colour :=
  let len := inject_Z (Z.of_nat (length (enemies game))) in
  let r := len * 255 / 20 in
  let g := (20 - len) * 255 / 20 in
  Rgb r g 0.

(** [Canvas.refreshPoints]; [fillText] turns the score, an integer, into
    its decimal string. *)
Definition refreshPoints (this : Canvas) (game : Game) : list Op :=
  [SetFillStyle (mapColor game);
   FillText (pretty (points (player game)))
            (width (element this) / 2) (height (element this) / 2)].

(** The line feed, and [string.split(sep)] for a one-character separator. *)
Definition line_feed : ascii := ascii_of_nat 10.

Fixpoint split (sep : ascii) (s : string) : list string :=
  match s with
  | EmptyString => [EmptyString]
  | String c s' =>
    if Ascii.eqb c sep then EmptyString :: split sep s'
    else match split sep s' with
         | piece :: pieces => String c piece :: pieces
         | [] => [String c EmptyString]
         end
  end.

(** The [forEach] of [loadGOScreen], with its running [offset]. *)
Fixpoint fill_lines (this : Canvas) (lines : list string) (offset : Q) : list Op :=
  match lines with
  | [] => []
  | s :: lines' =>
    FillText s (width (element this) / 2) (height (element this) / 2 + offset)
    :: fill_lines this lines' (offset + 20)
  end.

(** The text of the game-over screen. *)
Definition game_over_text (game : Game) : string :=
  ("¡Has perdido!" +:+ String line_feed "Los marcianos te han superado."
   +:+ String line_feed "Puntuación: ") +:+ pretty (points (player game)).

(** [Canvas.loadGOScreen]. *)
Definition loadGOScreen (this : Canvas) (game : Game) : list Op :=
  [SetFillStyle (Css "#f00");
   FillRect (width (element this) / 6) (height (element this) / 6)
            (width (element this) * 4 / 6) (height (element this) * 4 / 6);
   SetFillStyle (Css "#000");
   SetFont "20px sans-serif"]
  ++ fill_lines this (split line_feed (game_over_text game)) (-20).

(** [Enemy.draw]: a new image with the enemy's source, drawn on its
    rectangle. *)
Definition draw (this : Enemy) : list Op :=
  [DrawImage (img this)
     (x (xy (rect this))) (y (xy (rect this)))
     (w (wh (rect this))) (h (wh (rect this)))].

(** [Canvas.frame]. *)
Definition frame (this : Canvas) (st : Store) (game : Game) : list Op :=
  refresh this
  ++ flat_map (fun enemy => draw (obj st enemy)) (enemies game)
  ++ (if state game then refreshPoints this game else loadGOScreen this game).

(** ** The event loop of the simpler variant

    [initGame] starts with no enemy and installs the click handler and a
    [setInterval] that spawns an enemy every second; the interval is never
    cleared, so both events can always happen. *)
Module SimpleLoop.

Record World := { store : Store; globals : Simple.Globals }.

Inductive Event :=
| Click (e : MouseEvent)
| Interval (rx ry : Q).

Definition step (wd : World) (ev : Event) : World :=
  match ev with
  | Click e =>
    {| store := store wd; globals := Simple.mouseclick (store wd) e (globals wd) |}
  | Interval rx ry =>
    let '(st', g') := Simple.spawn rx ry (store wd) (globals wd) in
    {| store := st'; globals := g' |}
  end.

Definition run (wd : World) (evs : list Event) : World := fold_left step evs wd.

Definition initGame (el : Element) : World :=
  {| store := {| obj := fun _ => no_enemy; next := 0%nat |};
     globals := {| Simple.canvas := {| element := el |}; Simple.enemies := [] |} |}.

(** The numbers of interval ticks and of clicks among [evs]. *)
Fixpoint spawns (evs : list Event) : nat :=
  match evs with
  | [] => O
  | Interval _ _ :: evs' => S (spawns evs')
  | Click _ :: evs' => spawns evs'
  end.

Fixpoint clicks (evs : list Event) : nat :=
  match evs with
  | [] => O
  | Click _ :: evs' => S (clicks evs')
  | Interval _ _ :: evs' => clicks evs'
  end.

End SimpleLoop.

(** ** Vocabulary of the statements *)

(** The test the click handler applies to the enemy at reference [r]. *)
Definition hit (st : Store) (game : Game) (e : MouseEvent) (r : ref) : bool :=
  hasCollided (rect (obj st r)) (click_xy (element (canvas game)) e).

(** [game] with the enemy list [es] and one more point. *)
Definition scored (game : Game) (es : list ref) : Game :=
  {| canvas := canvas game; enemies := es; player := updateScore (player game);
     difficulty := difficulty game; state := state game |}.

(** The delay [timeout] hands to [setTimeout]: [1000*game.difficulty]. *)
Definition delay (game : Game) : Q := 1000 * difficulty game.

(** A canvas of the given size, 8 pixels into its offset parent. *)
Definition canvas_el (wd hg : Q) : Element :=
  {| offsetLeft := 8; offsetTop := 8;
     offsetParent := Some {| offsetLeft := 0; offsetTop := 0; offsetParent := None;
                             width := 0; height := 0 |};
     width := wd; height := hg |}.

(** What the simpler variant sees of a game: its canvas and its enemies. *)
Definition globals_of (game : Game) : Simple.Globals :=
  {| Simple.canvas := canvas game; Simple.enemies := enemies game |}.

(** The worlds the event loop can be in: those reached from [init] by
    some sequence of events. *)
Definition reachable (el : Element) (wd : World) : Prop :=
  exists evs, run (init el) evs = Some wd.

(** The invariant that ties the pending timeout to the running flag: one
    timeout is pending while the game runs, with at most 19 enemies then,
    and none is pending once it is over. *)
Definition timer_inv (wd : World) : Prop :=
  timers wd = (if state (game wd) then 1 else 0)%nat /\
  (state (game wd) = true -> length (enemies (game wd)) <= 19)%nat /\
  (length (enemies (game wd)) <= 20)%nat.

(** A 50x50 rectangle that lies within the canvas [el]. *)
Definition in_canvas (el : Element) (r : Rect) : Prop :=
  0 <= x (xy r) <= width el - 50 /\
  0 <= y (xy r) <= height el - 50 /\
  wh r = {| w := 50; h := 50 |}.

(** The invariant behind it: the canvas of the game is [el], and every
    enemy of the game is an allocated object whose rectangle lies within. *)
Definition placed_inv (el : Element) (wd : World) : Prop :=
  canvas (game wd) = {| element := el |} /\
  forall r, r ∈ enemies (game wd) ->
    (r < next (store wd))%nat /\ in_canvas el (rect (obj (store wd) r)).

(** The recurrence of the specification on the delay,
    [d' = d*0.98 if d*0.98 > 100 else d], and the sequence it generates
    from [d0 = 1000]. *)
Definition next_delay (d : Q) : Q :=
  if Qlt_bool 100 (d * 0.98) then d * 0.98 else d.

Definition delay_seq (n : nat) : Q := Nat.iter n next_delay 1000.

(** The number of timeouts among the events [evs]. *)
Fixpoint ticks (evs : list Event) : nat :=
  match evs with
  | [] => O
  | Click _ :: evs' => ticks evs'
  | Timeout _ _ :: evs' => S (ticks evs')
  end.

(** The game is over exactly when there are 20 enemies. *)
Definition over_inv (wd : World) : Prop :=
  (state (game wd) = true -> length (enemies (game wd)) <= 19)%nat /\
  (state (game wd) = false -> length (enemies (game wd)) = 20%nat).


(** Every enemy of the game is an allocated object with the sprite of the
    game as its image. *)
Definition sprite_inv (wd : World) : Prop :=
  forall r, r ∈ enemies (game wd) ->
    (r < next (store wd))%nat /\ img (obj (store wd) r) = "img/enemy.png".

(** The offsets that [element_coords] adds up: those of the element and of
    its offset ancestors, the last of the chain excepted. *)
Fixpoint offset_chain (el : Element) : list (Q * Q) :=
  match offsetParent el with
  | Some parent => (offsetLeft el, offsetTop el) :: offset_chain parent
  | None => []
  end.

Definition Qsum (l : list Q) : Q := fold_right Qplus 0 l.

(** An operation that paints a rectangle stays within a [cw] by [ch]
    canvas. *)
Definition op_inside (cw ch : Q) (op : Op) : Prop :=
  match op with
  | FillRect rx ry rw rh => 0 <= rx /\ rx + rw <= cw /\ 0 <= ry /\ ry + rh <= ch
  | DrawImage _ dx dy dw dh => 0 <= dx /\ dx + dw <= cw /\ 0 <= dy /\ dy + dh <= ch
  | _ => True
  end.

(** The images an operation list draws. *)
Definition images (ops : list Op) : list Op :=
  List.filter (fun op => match op with DrawImage _ _ _ _ _ => true | _ => false end) ops.

(** Whether the character [c] occurs in the string [s]. *)
Fixpoint occurs (c : ascii) (s : string) : bool :=
  match s with
  | EmptyString => false
  | String c' s' => Ascii.eqb c' c || occurs c s'
  end.

(** ** The difficulty update in binary64 arithmetic

    JavaScript numbers are IEEE 754 binary64 values, and each product of
    the source is rounded to the nearest of them (ties to even). The
    module restates the two lines of [timeout] that update the difficulty,
    and the delay [1000*game.difficulty], with that rounding; it serves to
    check that the exact arithmetic of the model takes the same branches
    as the code. Only the normal range is covered, which is where the
    difficulty and the delay live. *)
Module Binary64.

(** [n/d] with the denominator, or the numerator, scaled by [2^|e|]:
    the fraction [n / (d * 2^e)]. *)
Definition scale (n d e : Z) : Z * Z :=
  if (0 <=? e)%Z then (n, (d * 2 ^ e)%Z) else ((n * 2 ^ (- e))%Z, d).

(** [floor (log2 (n/d))] for [n, d > 0]. *)
Definition floor_log2 (n d : Z) : Z :=
  let l := (Z.log2 n - Z.log2 d)%Z in
  let '(n', d') := scale n d l in
  if (d' <=? n')%Z then l else (l - 1)%Z.

(** The nearest integer to [n/d], ties to even. *)
Definition nearest_even (n d : Z) : Z :=
  let q := (n / d)%Z in
  let r := (n mod d)%Z in
  match (2 * r ?= d)%Z with
  | Lt => q
  | Gt => (q + 1)%Z
  | Eq => if Z.even q then q else (q + 1)%Z
  end.

(** The binary64 value nearest to [n/d] for [n, d > 0]: a 53-bit
    significand [m] and an exponent [e], as the rational [m * 2^e]. *)
Definition round_pos (n d : Z) : Q :=
  let e := (floor_log2 n d - 52)%Z in
  let '(n', d') := scale n d e in
  let m := nearest_even n' d' in
  if (0 <=? e)%Z then inject_Z (m * 2 ^ e) else Qmake m (Z.to_pos (2 ^ (- e))).

Definition round (q : Q) : Q :=
  match Qnum q with
  | Z0 => 0
  | Zpos n => round_pos (Zpos n) (Zpos (Qden q))
  | Zneg n => - round_pos (Zpos n) (Zpos (Qden q))
  end.

(** The product of two binary64 values. *)
Definition mul (a b : Q) : Q := round (a * b).

(** [if (1000*game.difficulty*0.98 > 100) game.difficulty *= 0.98;] *)
Definition decay (d : Q) : Q :=
  if Qlt_bool 100 (mul (mul 1000 d) (round 0.98)) then mul d (round 0.98) else d.

(** The difficulty after [n] timeouts, and the delay [1000*game.difficulty]. *)
Definition difficulty_seq (n : nat) : Q := Nat.iter n decay 1.
Definition delay_seq (n : nat) : Q := mul 1000 (difficulty_seq n).

(** The branch [decay] takes at the [n]th timeout. *)
Definition decays (n : nat) : bool :=
  Qlt_bool 100 (mul (mul 1000 (difficulty_seq n)) (round 0.98)).

End Binary64.

(** What is checked of a binary64 difficulty [d64] against the exact
    delay [dx] of the same index: [timeout] takes the same branch, the
    binary64 delay is above 100, the next one is not larger, and the two
    delays differ by at most [2^-41]. *)
Definition binary64_check (d64 dx : Q) : bool :=
  Bool.eqb (Qlt_bool 100 (Binary64.mul (Binary64.mul 1000 d64) (Binary64.round 0.98)))
           (Qlt_bool 100 (dx * 0.98))
  && Qlt_bool 100 (Binary64.mul 1000 d64)
  && Qle_bool (Binary64.mul 1000 (Binary64.decay d64)) (Binary64.mul 1000 d64)
  && Qle_bool (Qabs (Binary64.mul 1000 d64 - dx)) (1 # 2 ^ 41).

(** The check along the first [n] elements of the two sequences. *)
Fixpoint binary64_check_run (n : nat) (d64 dx : Q) : bool :=
  match n with
  | O => true
  | S n' => binary64_check d64 dx
            && binary64_check_run n' (Binary64.decay d64) (next_delay dx)
  end.

(** ** Sample data *)

(** Two overlapping 50x50 enemies, the older at (100,100), the newer at
    (120,120), on a 500x500 canvas. *)
Definition two_enemies : Store :=
  {| obj := fun a =>
       match a with
       | O => {| rect := {| xy := {| x := 100; y := 100 |}; wh := {| w := 50; h := 50 |} |};
                 img := "img/enemy.png" |}
       | S O => {| rect := {| xy := {| x := 120; y := 120 |}; wh := {| w := 50; h := 50 |} |};
                   img := "img/enemy.png" |}
       | _ => no_enemy
       end;
     next := 2%nat |}.

Definition two_enemies_game (running : bool) : Game :=
  {| canvas := {| element := canvas_el 500 500 |}; enemies := [0; 1]%nat;
     player := {| points := 0 |}; difficulty := 1; state := running |}.

(** A click at (125,125) of the canvas, inside both enemies, and one at
    its origin, inside none. *)
Definition click_both : MouseEvent := {| clientX := 133; clientY := 133 |}.
Definition click_none : MouseEvent := {| clientX := 8; clientY := 8 |}.

(** The world after the events [evs] ([wd] itself if some timeout event of
    [evs] finds no timeout pending). *)
Definition after (wd : World) (evs : list Event) : World :=
  default wd (run wd evs).

(** [n] timeouts in a row and no click, every enemy landing in the middle
    of its range. *)
Definition ticks_only (n : nat) : list Event := replicate n (Timeout 0.5 0.5).

(** The 500x500 game after 19 and after 20 such timeouts. *)
Definition world_19 : World := after (init (canvas_el 500 500)) (ticks_only 19).
Definition world_20 : World := after (init (canvas_el 500 500)) (ticks_only 20).

(** Three timeouts, with draws at and near the ends of the range, and a
    click that hits nothing. *)
Definition mixed_events : list Event :=
  [Timeout 0 0.99; Timeout 0.5 0.5; Click click_none; Timeout 0.25 0.75].

(** A top-level element with offsets of its own, and the 500x500 canvas
    moved 40 to the right and 15 down in the page. *)
Definition root_el : Element :=
  {| offsetLeft := 30; offsetTop := 40; offsetParent := None; width := 0; height := 0 |}.

Definition moved_canvas_el : Element :=
  {| offsetLeft := 48; offsetTop := 23;
     offsetParent := Some {| offsetLeft := 0; offsetTop := 0; offsetParent := None;
                             width := 0; height := 0 |};
     width := 500; height := 500 |}.

(** The game after one timeout, its enemy at (225,225), and a click at
    (250,250) of the canvas, inside that enemy. *)
Definition world_1 : World := after (init (canvas_el 500 500)) (ticks_only 1).

(** A canvas 30 wide and 40 high. *)
Definition narrow_game : Game :=
  new_Game {| element := canvas_el 30 40 |} [] {| points := 0 |}.

(** * Properties *)

(** ** Arrays *)

Lemma find_first_first (array : list ref) (i : nat) (element : ref) :
  array !! i = Some element ->
  (forall j, (j < i)%nat -> array !! j <> Some element) ->
  find_first array element = Z.of_nat i.
Proof.
  intros Hi Hbefore. unfold find_first.
  assert (Hfind : list_find (fun e => e = element) array = Some (i, element)).
  { apply list_find_Some. repeat split; auto.
    intros j r Hj Hlt ->. exact (Hbefore j Hlt Hj). }
  now rewrite Hfind.
Qed.

Lemma splice_one {A : Type} (array : list A) (i : nat) :
  (i < length array)%nat ->
  splice array (Z.of_nat i) 1 = take i array ++ drop (S i) array.
Proof.
  intros Hi. unfold splice.
  destruct (Z.ltb_spec (Z.of_nat i) 0) as [Hneg|_]; [lia|].
  replace (Z.min (Z.of_nat i) (Z.of_nat (length array))) with (Z.of_nat i) by lia.
  replace (Z.min (Z.max 1 0) (Z.of_nat (length array) - Z.of_nat i)) with 1%Z by lia.
  replace (Z.of_nat i + 1)%Z with (Z.of_nat (S i)) by lia.
  now rewrite !Nat2Z.id.
Qed.

(** ** [Rect.hasCollided] *)

Lemma hasCollided_true (this : Rect) (p : XY) :
  hasCollided this p = true <->
  (x (xy this) <= x p /\ x p <= x (xy this) + w (wh this)) /\
  (y (xy this) <= y p /\ y p <= y (xy this) + h (wh this)).
Proof.
  unfold hasCollided.
  rewrite <- !Qle_bool_iff.
  destruct (Qle_bool (x (xy this)) (x p)), (Qle_bool (x p) (x (xy this) + w (wh this))),
    (Qle_bool (y (xy this)) (y p)), (Qle_bool (y p) (y (xy this) + h (wh this)));
    simpl; intuition congruence.
Qed.

(** ** The click loop *)

Lemma mouseclick_loop_collided fuel st e i game :
  mouseclick_loop fuel st e i true game = game.
Proof.
  destruct fuel as [|fuel]; simpl; [reflexivity|].
  now rewrite andb_false_r.
Qed.

Lemma mouseclick_loop_not_running fuel st e i collided game :
  state game = false -> mouseclick_loop fuel st e i collided game = game.
Proof.
  intros Hstate. destruct fuel as [|fuel]; simpl; [reflexivity|].
  now rewrite Hstate, andb_false_r.
Qed.

(** The loop from index [i], when no enemy before [i] is hit: either no
    enemy at all is hit and the game is returned as it is, or the first hit
    enemy is taken out and one point is scored. *)
Lemma mouseclick_loop_scan fuel st e i game :
  state game = true ->
  (length (enemies game) - i < fuel)%nat ->
  Forall (fun r => hit st game e r = false) (take i (enemies game)) ->
  (Forall (fun r => hit st game e r = false) (enemies game) /\
   mouseclick_loop fuel st e i false game = game) \/
  (exists before r after,
     enemies game = before ++ r :: after /\
     Forall (fun r' => hit st game e r' = false) before /\
     hit st game e r = true /\
     mouseclick_loop fuel st e i false game = scored game (before ++ after)).
Proof.
  intros Hstate. revert i.
  induction fuel as [|fuel IH]; intros i Hfuel Hbefore; [lia|].
  simpl. rewrite Hstate. simpl. rewrite andb_true_r.
  destruct (decide (i < length (enemies game))%nat) as [Hi|Hi].
  - rewrite bool_decide_eq_true_2 by assumption.
    destruct (lookup_lt_is_Some_2 _ _ Hi) as [r Hr]. rewrite Hr.
    fold (hit st game e r).
    destruct (hit st game e r) eqn:Hhit.
    + right. exists (take i (enemies game)), r, (drop (S i) (enemies game)).
      split; [now rewrite take_drop_middle|].
      split; [assumption|]. split; [exact Hhit|].
      rewrite mouseclick_loop_collided. unfold scored. rewrite Hstate. f_equal.
      rewrite (find_first_first _ i); [now apply splice_one | assumption |].
      intros j Hj Hjr.
      rewrite Forall_lookup in Hbefore.
      specialize (Hbefore j r). rewrite lookup_take_lt in Hbefore by assumption.
      specialize (Hbefore Hjr). simpl in Hbefore. congruence.
    + apply IH; [lia|].
      rewrite (take_S_r _ _ _ Hr). apply Forall_app. split; [assumption|].
      now constructor.
  - rewrite bool_decide_eq_false_2 by assumption. left. split; [|reflexivity].
    now rewrite take_ge in Hbefore by lia.
Qed.

Lemma mouseclick_scan st e game :
  state game = true ->
  (Forall (fun r => hit st game e r = false) (enemies game) /\
   mouseclick st e game = game) \/
  (exists before r after,
     enemies game = before ++ r :: after /\
     Forall (fun r' => hit st game e r' = false) before /\
     hit st game e r = true /\
     mouseclick st e game = scored game (before ++ after)).
Proof.
  intros Hstate. unfold mouseclick.
  apply mouseclick_loop_scan; [assumption | lia | constructor].
Qed.

(** One turn of the loop. *)
Lemma mouseclick_loop_S fuel st e i collided game :
  mouseclick_loop (S fuel) st e i collided game =
  if bool_decide (i < length (enemies game))%nat && negb collided && state game
  then match enemies game !! i with
       | Some enemy =>
         if hit st game e enemy
         then mouseclick_loop fuel st e (S i) true
                (scored game (splice (enemies game) (find_first (enemies game) enemy) 1))
         else mouseclick_loop fuel st e (S i) collided game
       | None => game
       end
  else game.
Proof. reflexivity. Qed.

(** The fuel of [mouseclick] is enough: more fuel changes nothing. *)
Lemma mouseclick_loop_fuel fuel st e i collided game :
  (length (enemies game) - i < fuel)%nat ->
  mouseclick_loop (S fuel) st e i collided game = mouseclick_loop fuel st e i collided game.
Proof.
  revert i collided game.
  induction fuel as [|fuel IH]; intros i collided game Hfuel; [lia|].
  rewrite (mouseclick_loop_S (S fuel) st e i), (mouseclick_loop_S fuel st e i collided game).
  destruct (bool_decide (i < length (enemies game))%nat) eqn:Hi; [|reflexivity].
  apply bool_decide_eq_true in Hi. rewrite andb_true_l.
  destruct (negb collided && state game); [|reflexivity].
  destruct (enemies game !! i) as [enemy|]; [|reflexivity].
  destruct (hit st game e enemy).
  - now rewrite !mouseclick_loop_collided.
  - apply IH. lia.
Qed.

Lemma mouseclick_fuel_enough fuel st e game :
  (length (enemies game) < fuel)%nat ->
  mouseclick_loop fuel st e 0 false game = mouseclick st e game.
Proof.
  unfold mouseclick. intros Hfuel.
  induction Hfuel as [|fuel Hle IH]; [reflexivity|].
  rewrite mouseclick_loop_fuel by lia. exact IH.
Qed.

Lemma mouseclick_not_running st e game :
  state game = false -> mouseclick st e game = game.
Proof. apply mouseclick_loop_not_running. Qed.

(** A click never adds an enemy, and keeps the canvas, the difficulty and
    the running flag. *)
Lemma mouseclick_frame st e game :
  canvas (mouseclick st e game) = canvas game /\
  difficulty (mouseclick st e game) = difficulty game /\
  state (mouseclick st e game) = state game /\
  (length (enemies (mouseclick st e game)) <= length (enemies game))%nat /\
  (forall r, r ∈ enemies (mouseclick st e game) -> r ∈ enemies game).
Proof.
  destruct (state game) eqn:Hstate.
  - destruct (mouseclick_scan st e game Hstate)
      as [[_ ->] | (before & r & after & Hsplit & _ & _ & ->)].
    + rewrite Hstate. repeat split; auto.
    + simpl. rewrite Hsplit, !length_app. simpl. repeat split; auto; [lia|].
      intros r'. rewrite !elem_of_app, elem_of_cons. tauto.
  - rewrite (mouseclick_not_running st e game Hstate), Hstate. repeat split; auto.
Qed.

(** ** [timeout], field by field *)

Lemma timeout_store rx ry st game :
  fst (fst (timeout rx ry st game)) =
  fst (Enemy_of st
         {| xy := {| x := rx * (width (element (canvas game)) - 50);
                     y := ry * (height (element (canvas game)) - 50) |};
            wh := {| w := 50; h := 50 |} |} "img/enemy.png").
Proof. unfold timeout. simpl. now destruct (bool_decide _). Qed.

Lemma timeout_enemies rx ry st game :
  enemies (snd (fst (timeout rx ry st game))) = enemies game ++ [next st].
Proof. unfold timeout. simpl. now destruct (bool_decide _). Qed.

Lemma timeout_canvas rx ry st game :
  canvas (snd (fst (timeout rx ry st game))) = canvas game.
Proof. unfold timeout. simpl. now destruct (bool_decide _). Qed.

Lemma timeout_difficulty rx ry st game :
  difficulty (snd (fst (timeout rx ry st game))) =
  if Qlt_bool 100 (1000 * difficulty game * 0.98)
  then difficulty game * 0.98 else difficulty game.
Proof. unfold timeout. simpl. now destruct (bool_decide _). Qed.

Lemma timeout_state rx ry st game :
  state (snd (fst (timeout rx ry st game))) =
  if bool_decide (length (enemies game) + 1 < 20)%nat then state game else false.
Proof.
  unfold timeout. simpl. rewrite length_app. simpl.
  now destruct (bool_decide _).
Qed.

Lemma timeout_again rx ry st game :
  snd (timeout rx ry st game) =
  if bool_decide (length (enemies game) + 1 < 20)%nat
  then Some (1000 * difficulty (snd (fst (timeout rx ry st game)))) else None.
Proof.
  unfold timeout. simpl. rewrite length_app. simpl.
  now destruct (bool_decide _).
Qed.

(** ** Hit-testing *)

(** C3. On a running game a click removes at most one enemy: either no
    enemy contains the click point and the list is unchanged, or the list
    splits as [before ++ r :: after] where [r] contains the point and no
    enemy of [before] does, and the list left is [before ++ after]. The
    list is in spawn order, since [timeout] appends the new enemy at its
    end, so [r] is the oldest enemy that contains the point. *)
Theorem mouseclick_removes_first_hit (st : Store) (e : MouseEvent) (game : Game)
    (Hrunning : state game = true) :
  ((Forall (fun r => hit st game e r = false) (enemies game) /\
    enemies (mouseclick st e game) = enemies game) \/
   (exists before r after,
      enemies game = before ++ r :: after /\
      Forall (fun r' => hit st game e r' = false) before /\
      hit st game e r = true /\
      enemies (mouseclick st e game) = before ++ after)) /\
  (forall rx ry, enemies (snd (fst (timeout rx ry st game))) = enemies game ++ [next st]).
Proof.
  split; [|intros; apply timeout_enemies].
  destruct (mouseclick_scan st e game Hrunning)
    as [[Hnone ->] | (before & r & after & Hsplit & Hbefore & Hr & ->)].
  - now left.
  - right. exists before, r, after. now repeat split.
Qed.

Lemma mouseclick_removes_first_hit_witness :
  state (two_enemies_game true) = true /\
  ((Forall (fun r => hit two_enemies (two_enemies_game true) click_both r = false)
      (enemies (two_enemies_game true)) /\
    enemies (mouseclick two_enemies click_both (two_enemies_game true)) =
    enemies (two_enemies_game true)) \/
   (exists before r after,
      enemies (two_enemies_game true) = before ++ r :: after /\
      Forall (fun r' => hit two_enemies (two_enemies_game true) click_both r' = false) before /\
      hit two_enemies (two_enemies_game true) click_both r = true /\
      enemies (mouseclick two_enemies click_both (two_enemies_game true)) = before ++ after)) /\
  (forall rx ry,
     enemies (snd (fst (timeout rx ry two_enemies (two_enemies_game true)))) =
     enemies (two_enemies_game true) ++ [next two_enemies]).
Proof.
  split; [reflexivity|].
  apply (mouseclick_removes_first_hit two_enemies click_both (two_enemies_game true)).
  reflexivity.
Defined.

(** Both enemies contain the point; the older one goes. *)
Example mouseclick_overlapping :
  hit two_enemies (two_enemies_game true) click_both 0%nat = true /\
  hit two_enemies (two_enemies_game true) click_both 1%nat = true /\
  enemies (mouseclick two_enemies click_both (two_enemies_game true)) = [1%nat] /\
  points (player (mouseclick two_enemies click_both (two_enemies_game true))) = 1%Z.
Proof. now vm_compute. Qed.

(** C4. Containment is inclusive at both ends of both axes: a point is a
    hit iff [rectX <= x <= rectX+rectW] and [rectY <= y <= rectY+rectH].
    So the corner [(rectX, rectY)] of a rectangle of non-negative width and
    height is a hit, and the point [(rectX - 1, rectY)] never is. *)
Theorem hasCollided_inclusive (this : Rect) :
  (forall p : XY,
     hasCollided this p = true <->
     x (xy this) <= x p <= x (xy this) + w (wh this) /\
     y (xy this) <= y p <= y (xy this) + h (wh this)) /\
  (0 <= w (wh this) -> 0 <= h (wh this) ->
   hasCollided this {| x := x (xy this); y := y (xy this) |} = true) /\
  hasCollided this {| x := x (xy this) - 1; y := y (xy this) |} = false.
Proof.
  split; [intros p; apply hasCollided_true|]. split.
  - intros Hw Hh. apply hasCollided_true. simpl. lra.
  - apply not_true_is_false. rewrite hasCollided_true. simpl. lra.
Qed.

Lemma hasCollided_inclusive_witness :
  let this := rect (obj two_enemies 0%nat) in
  0 <= w (wh this) /\ 0 <= h (wh this) /\
  hasCollided this {| x := x (xy this); y := y (xy this) |} = true.
Proof.
  intros this.
  assert (Hw : 0 <= w (wh this)) by (simpl; lra).
  assert (Hh : 0 <= h (wh this)) by (simpl; lra).
  split; [exact Hw|]. split; [exact Hh|].
  exact (proj1 (proj2 (hasCollided_inclusive this)) Hw Hh).
Defined.

(** A rectangle of negative width contains no point, not even its corner. *)
Example hasCollided_negative_width :
  hasCollided {| xy := {| x := 100; y := 100 |}; wh := {| w := -50; h := 50 |} |}
              {| x := 100; y := 100 |} = false.
Proof. reflexivity. Qed.

(** The far corner is a hit as well, one past it is not. *)
Example hasCollided_far_corner :
  hasCollided (rect (obj two_enemies 0%nat)) {| x := 150; y := 150 |} = true /\
  hasCollided (rect (obj two_enemies 0%nat)) {| x := 151; y := 150 |} = false /\
  hasCollided (rect (obj two_enemies 0%nat)) {| x := 99; y := 100 |} = false.
Proof. now vm_compute. Qed.

(** C5. On a running game: if some enemy contains the click point, the
    click leaves one enemy less and one point more, and keeps the
    difficulty and the running flag; if none does, the game is unchanged. *)
Theorem mouseclick_hit_or_miss (st : Store) (e : MouseEvent) (game : Game)
    (Hrunning : state game = true) :
  ((exists r, r ∈ enemies game /\ hit st game e r = true) ->
   S (length (enemies (mouseclick st e game))) = length (enemies game) /\
   points (player (mouseclick st e game)) = (points (player game) + 1)%Z /\
   difficulty (mouseclick st e game) = difficulty game /\
   state (mouseclick st e game) = state game) /\
  ((forall r, r ∈ enemies game -> hit st game e r = false) ->
   mouseclick st e game = game).
Proof.
  destruct (mouseclick_scan st e game Hrunning)
    as [[Hnone Hsame] | (before & r & after & Hsplit & Hbefore & Hr & Hgone)].
  - split; [|intros _; exact Hsame].
    intros (r & Hin & Hr). rewrite Forall_forall in Hnone.
    specialize (Hnone r Hin). simpl in Hnone. congruence.
  - split.
    + intros _. rewrite Hgone, Hsplit. simpl. rewrite !length_app. simpl.
      repeat split. lia.
    + intros Hnone. specialize (Hnone r). rewrite Hsplit in Hnone.
      rewrite Hnone in Hr; [discriminate|].
      apply elem_of_app. right. apply elem_of_cons. now left.
Qed.

Lemma mouseclick_hit_or_miss_witness :
  state (two_enemies_game true) = true /\
  S (length (enemies (mouseclick two_enemies click_both (two_enemies_game true)))) =
  length (enemies (two_enemies_game true)) /\
  mouseclick two_enemies click_none (two_enemies_game true) = two_enemies_game true.
Proof.
  split; [reflexivity|]. split.
  - apply (mouseclick_hit_or_miss two_enemies click_both (two_enemies_game true));
      [reflexivity|].
    exists 0%nat. split; [apply elem_of_cons; now left | reflexivity].
  - apply (mouseclick_hit_or_miss two_enemies click_none (two_enemies_game true));
      [reflexivity|].
    intros r Hin.
    apply elem_of_cons in Hin as [->|Hin]; [reflexivity|].
    apply elem_of_cons in Hin as [->|Hin]; [reflexivity|].
    now apply elem_of_nil in Hin.
Defined.

(** C8. A click on a game that is not running changes nothing. *)
Theorem mouseclick_ignored_when_stopped (st : Store) (e : MouseEvent) (game : Game)
    (Hstopped : state game = false) :
  mouseclick st e game = game.
Proof.
  unfold mouseclick. rewrite mouseclick_loop_S.
  rewrite Hstopped. now rewrite andb_false_r.
Qed.

Lemma mouseclick_ignored_when_stopped_witness :
  state (two_enemies_game false) = false /\
  mouseclick two_enemies click_both (two_enemies_game false) = two_enemies_game false.
Proof.
  split; [reflexivity|].
  apply (mouseclick_ignored_when_stopped two_enemies click_both (two_enemies_game false)).
  reflexivity.
Defined.

(** ** The two variants *)

Lemma simple_mouseclick_loop_agrees fuel st e i collided game :
  state game = true ->
  Simple.mouseclick_loop fuel st e i collided (globals_of game) =
  globals_of (mouseclick_loop fuel st e i collided game).
Proof.
  revert i collided game.
  induction fuel as [|fuel IH]; intros i collided game Hstate; [reflexivity|].
  rewrite mouseclick_loop_S. simpl. rewrite Hstate, andb_true_r.
  destruct (bool_decide (i < length (enemies game))%nat && negb collided); [|reflexivity].
  destruct (enemies game !! i) as [enemy|]; [|reflexivity].
  unfold hit. destruct (hasCollided _ _).
  - rewrite <- IH by exact Hstate. reflexivity.
  - now apply IH.
Qed.

(** C9. With the same canvas, store and enemy list, the click handler of
    the simpler variant leaves the enemy list that the handler of
    [script.js] leaves on a running game, whatever the score and the
    difficulty; and its spawn callback allocates and appends the enemy that
    [timeout] allocates and appends. *)
Theorem simple_variant_agrees :
  (forall (st : Store) (e : MouseEvent) (c : Canvas) (es : list ref) (p : Player) (d : Q),
     Simple.enemies
       (Simple.mouseclick st e {| Simple.canvas := c; Simple.enemies := es |}) =
     enemies
       (mouseclick st e
          {| canvas := c; enemies := es; player := p; difficulty := d; state := true |})) /\
  (forall (rx ry : Q) (st : Store) (game : Game),
     Simple.spawn rx ry st (globals_of game) =
     (fst (fst (timeout rx ry st game)), globals_of (snd (fst (timeout rx ry st game))))).
Proof.
  split.
  - intros st e c es p d.
    set (game := {| canvas := c; enemies := es; player := p; difficulty := d; state := true |}).
    change {| Simple.canvas := c; Simple.enemies := es |} with (globals_of game).
    unfold Simple.mouseclick, mouseclick.
    now rewrite simple_mouseclick_loop_agrees.
  - intros rx ry st game. unfold Simple.spawn, timeout, globals_of. simpl.
    now destruct (bool_decide _).
Qed.

(** On a game that is over the two differ: the simpler handler still
    removes the enemy, the handler of [script.js] does not. *)
Example simple_variant_has_no_game_over :
  Simple.enemies (Simple.mouseclick two_enemies click_both (globals_of (two_enemies_game false)))
  = [1%nat] /\
  enemies (mouseclick two_enemies click_both (two_enemies_game false)) = [0%nat; 1%nat].
Proof. now vm_compute. Qed.

(** ** The event loop *)

Lemma step_click wd e :
  step wd (Click e) =
  Some {| store := store wd; game := mouseclick (store wd) e (game wd);
          timers := timers wd |}.
Proof. reflexivity. Qed.

Lemma step_timeout wd rx ry :
  step wd (Timeout rx ry) =
  match timers wd with
  | O => None
  | S pending =>
    Some {| store := fst (fst (timeout rx ry (store wd) (game wd)));
            game := snd (fst (timeout rx ry (store wd) (game wd)));
            timers := match snd (timeout rx ry (store wd) (game wd)) with
                      | Some _ => S pending
                      | None => pending
                      end |}
  end.
Proof.
  unfold step. destruct (timers wd); [reflexivity|].
  now destruct (timeout rx ry (store wd) (game wd)) as [[st' game'] again].
Qed.

(** Induction along a run, for events that satisfy [Pe]. *)
Lemma run_invariant (P : World -> Prop) (Pe : Event -> Prop) :
  (forall wd ev wd', Pe ev -> P wd -> step wd ev = Some wd' -> P wd') ->
  forall evs wd wd', Forall Pe evs -> P wd -> run wd evs = Some wd' -> P wd'.
Proof.
  intros Hstep evs.
  induction evs as [|ev evs IH]; intros wd wd' Hevs Hwd Hrun; simpl in Hrun.
  - now injection Hrun as <-.
  - inversion Hevs as [|? ? Hev Hevs']; subst.
    destruct (step wd ev) as [wd1|] eqn:Hstep1; [|discriminate].
    exact (IH wd1 wd' Hevs' (Hstep wd ev wd1 Hev Hwd Hstep1) Hrun).
Qed.

Lemma Forall_any_event (evs : list Event) : Forall (fun _ => True) evs.
Proof. now apply Forall_forall. Qed.

(** Neither handler sets [state] back to [true]. *)
Lemma step_keeps_stopped wd ev wd' :
  state (game wd) = false -> step wd ev = Some wd' -> state (game wd') = false.
Proof.
  intros Hstopped Hstep. destruct ev as [e|rx ry].
  - rewrite step_click in Hstep. injection Hstep as <-. simpl.
    now rewrite mouseclick_not_running.
  - rewrite step_timeout in Hstep. destruct (timers wd); [discriminate|].
    injection Hstep as <-. simpl. rewrite timeout_state, Hstopped.
    now destruct (bool_decide _).
Qed.

Lemma run_keeps_stopped wd evs wd' :
  state (game wd) = false -> run wd evs = Some wd' -> state (game wd') = false.
Proof.
  intros Hstopped Hrun.
  apply (run_invariant (fun wd => state (game wd) = false) (fun _ => True)
           (fun wd ev wd' _ => step_keeps_stopped wd ev wd') evs wd wd');
    auto using Forall_any_event.
Qed.

Lemma timer_inv_init el : timer_inv (init el).
Proof. unfold timer_inv. simpl. repeat split; lia. Qed.

Lemma timer_inv_step wd ev wd' :
  timer_inv wd -> step wd ev = Some wd' -> timer_inv wd'.
Proof.
  intros (Htimers & Hrunning & Hlen) Hstep. destruct ev as [e|rx ry].
  - rewrite step_click in Hstep. injection Hstep as <-. unfold timer_inv. simpl.
    destruct (mouseclick_frame (store wd) e (game wd)) as (_ & _ & -> & Hle & _).
    repeat split; [assumption | intros Hs; specialize (Hrunning Hs); lia | lia].
  - rewrite step_timeout in Hstep.
    destruct (timers wd) as [|pending] eqn:Hpending; [discriminate|].
    injection Hstep as <-. unfold timer_inv. simpl.
    rewrite timeout_state, timeout_again, timeout_enemies, length_app. simpl.
    destruct (state (game wd)); [|discriminate].
    specialize (Hrunning eq_refl).
    destruct (decide (length (enemies (game wd)) + 1 < 20)%nat) as [Hlt|Hge].
    + rewrite bool_decide_eq_true_2 by assumption. repeat split; [lia | lia | lia].
    + rewrite bool_decide_eq_false_2 by assumption.
      repeat split; [lia | discriminate | lia].
Qed.

Lemma reachable_timer_inv el wd : reachable el wd -> timer_inv wd.
Proof.
  intros [evs Hrun].
  apply (run_invariant timer_inv (fun _ => True)
           (fun wd ev wd' _ => timer_inv_step wd ev wd') evs (init el) wd);
    auto using Forall_any_event, timer_inv_init.
Qed.

Lemma reachable_world_19 : reachable (canvas_el 500 500) world_19.
Proof. exists (ticks_only 19). now vm_compute. Qed.

Lemma reachable_world_20 : reachable (canvas_el 500 500) world_20.
Proof. exists (ticks_only 20). now vm_compute. Qed.

(** ** Game over *)

(** C1. A timeout that fires with 19 enemies or more on the board brings
    their number to 20 or more: it sets [state] to [false] and does not
    call [setTimeout] again, so one pending timeout less is left (none at
    all in a world the event loop can reach); and from then on no sequence
    of clicks and timeouts sets [state] back to [true]. *)
Theorem game_over_is_final (wd : World) (rx ry : Q)
    (Hfull : (19 <= length (enemies (game wd)))%nat)
    (Hpending : (0 < timers wd)%nat) :
  exists wd1,
    step wd (Timeout rx ry) = Some wd1 /\
    state (game wd1) = false /\
    snd (timeout rx ry (store wd) (game wd)) = None /\
    S (timers wd1) = timers wd /\
    (forall el, reachable el wd -> timers wd1 = 0%nat) /\
    (forall evs wd2, run wd1 evs = Some wd2 -> state (game wd2) = false).
Proof.
  rewrite step_timeout.
  destruct (timers wd) as [|pending] eqn:Htimers; [lia|].
  eexists. split; [reflexivity|]. simpl.
  rewrite timeout_state, timeout_again.
  rewrite bool_decide_eq_false_2 by lia.
  repeat split.
  - intros el Hreach. apply reachable_timer_inv in Hreach as (Hone & _).
    rewrite Htimers in Hone. destruct (state (game wd)); [lia | discriminate].
  - intros evs wd2. apply run_keeps_stopped. simpl.
    rewrite timeout_state. now rewrite bool_decide_eq_false_2 by lia.
Qed.

Lemma game_over_is_final_witness :
  (19 <= length (enemies (game world_19)))%nat /\
  (0 < timers world_19)%nat /\
  exists wd1,
    step world_19 (Timeout 0.5 0.5) = Some wd1 /\
    state (game wd1) = false /\
    snd (timeout 0.5 0.5 (store world_19) (game world_19)) = None /\
    S (timers wd1) = timers world_19 /\
    (forall el, reachable el world_19 -> timers wd1 = 0%nat) /\
    (forall evs wd2, run wd1 evs = Some wd2 -> state (game wd2) = false).
Proof.
  assert (Hfull : (19 <= length (enemies (game world_19)))%nat) by (vm_compute; lia).
  assert (Hpending : (0 < timers world_19)%nat) by (vm_compute; lia).
  split; [exact Hfull|]. split; [exact Hpending|].
  exact (game_over_is_final world_19 0.5 0.5 Hfull Hpending).
Defined.

(** The running flag along the sample run: still set after 19 timeouts,
    cleared by the 20th, and a later click does not set it again. *)
Example game_over_after_20_ticks :
  state (game world_19) = true /\ length (enemies (game world_19)) = 19%nat /\
  state (game world_20) = false /\ length (enemies (game world_20)) = 20%nat /\
  timers world_20 = 0%nat /\
  option_map (fun wd => state (game wd)) (run world_20 [Click click_both]) = Some false.
Proof. now vm_compute. Qed.

(** C2, as stated, fails: [timeout] does not test [state]. On the game
    that is over after 20 timeouts, with 20 enemies and [state] false, a
    call of [timeout] still appends a 21st enemy. *)
Lemma timeout_has_no_running_check :
  state (game world_20) = false /\
  length (enemies (game world_20)) = 20%nat /\
  length (enemies (snd (fst (timeout 0.5 0.5 (store world_20) (game world_20))))) = 21%nat /\
  snd (fst (timeout 0.5 0.5 (store world_20) (game world_20))) <> game world_20.
Proof.
  split; [now vm_compute|]. split; [now vm_compute|]. split; [now vm_compute|].
  intros Heq. apply (f_equal (fun g => length (enemies g))) in Heq.
  vm_compute in Heq. discriminate Heq.
Qed.

(** C2, amended. In every world the event loop can reach, a game that is
    not running has no timeout pending: no spawn tick can fire any more,
    so no enemy is added after the end of the game. *)
Theorem no_spawn_after_game_over (el : Element) (wd : World)
    (Hreach : reachable el wd) (Hstopped : state (game wd) = false) :
  timers wd = 0%nat /\ forall rx ry, step wd (Timeout rx ry) = None.
Proof.
  apply reachable_timer_inv in Hreach as (Htimers & _).
  rewrite Hstopped in Htimers. split; [assumption|].
  intros rx ry. now rewrite step_timeout, Htimers.
Qed.

Lemma no_spawn_after_game_over_witness :
  reachable (canvas_el 500 500) world_20 /\
  state (game world_20) = false /\
  timers world_20 = 0%nat /\
  forall rx ry, step world_20 (Timeout rx ry) = None.
Proof.
  assert (Hstopped : state (game world_20) = false) by now vm_compute.
  split; [exact reachable_world_20|]. split; [exact Hstopped|].
  exact (no_spawn_after_game_over (canvas_el 500 500) world_20 reachable_world_20 Hstopped).
Defined.

(** C10. In every world the event loop can reach there are at most 20
    enemies: a timeout that fires adds exactly one, a click adds none. *)
Theorem enemies_at_most_20 (el : Element) (wd : World) (Hreach : reachable el wd) :
  (length (enemies (game wd)) <= 20)%nat /\
  (forall rx ry wd', step wd (Timeout rx ry) = Some wd' ->
     length (enemies (game wd')) = S (length (enemies (game wd))) /\
     (length (enemies (game wd')) <= 20)%nat) /\
  (forall e wd', step wd (Click e) = Some wd' ->
     (length (enemies (game wd')) <= length (enemies (game wd)))%nat).
Proof.
  pose proof (reachable_timer_inv el wd Hreach) as Hinv.
  split; [apply Hinv|]. split.
  - intros rx ry wd' Hstep.
    pose proof (timer_inv_step wd _ wd' Hinv Hstep) as (_ & _ & Hle).
    split; [|exact Hle].
    rewrite step_timeout in Hstep. destruct (timers wd); [discriminate|].
    injection Hstep as <-. simpl. rewrite timeout_enemies, length_app. simpl. lia.
  - intros e wd' Hstep. rewrite step_click in Hstep. injection Hstep as <-. simpl.
    apply mouseclick_frame.
Qed.

Lemma enemies_at_most_20_witness :
  reachable (canvas_el 500 500) world_20 /\
  (length (enemies (game world_20)) <= 20)%nat.
Proof.
  split; [exact reachable_world_20|].
  exact (proj1 (enemies_at_most_20 (canvas_el 500 500) world_20 reachable_world_20)).
Defined.

(** ** Placement *)

Lemma random_in_range (r extent : Q) :
  0 <= r -> r < 1 -> 50 <= extent -> 0 <= r * (extent - 50) <= extent - 50.
Proof. intros H0 H1 Hextent. split; nra. Qed.

Lemma placed_inv_init el : placed_inv el (init el).
Proof.
  split; [reflexivity|]. simpl. intros r Hin. now apply elem_of_nil in Hin.
Qed.

Lemma placed_inv_step el wd ev wd' :
  50 <= width el -> 50 <= height el ->
  random_ok ev -> placed_inv el wd -> step wd ev = Some wd' -> placed_inv el wd'.
Proof.
  intros Hw Hh Hev [Hcanvas Hplaced] Hstep. destruct ev as [e|rx ry].
  - rewrite step_click in Hstep. injection Hstep as <-. unfold placed_inv. simpl.
    destruct (mouseclick_frame (store wd) e (game wd)) as (-> & _ & _ & _ & Hsub).
    split; [assumption|]. intros r Hin. apply Hplaced, Hsub, Hin.
  - destruct Hev as (Hx0 & Hx1 & Hy0 & Hy1).
    rewrite step_timeout in Hstep. destruct (timers wd); [discriminate|].
    injection Hstep as <-. unfold placed_inv. simpl.
    rewrite timeout_canvas, timeout_enemies, timeout_store, Hcanvas. simpl.
    split; [reflexivity|]. intros r Hin.
    apply elem_of_app in Hin as [Hin|Hin].
    + destruct (Hplaced r Hin) as [Hlt Hfits]. split; [lia|].
      now rewrite (proj2 (Nat.eqb_neq r (next (store wd)))) by lia.
    + apply list_elem_of_singleton in Hin as ->. split; [lia|].
      rewrite Nat.eqb_refl. unfold in_canvas. simpl.
      split; [now apply random_in_range|]. split; [now apply random_in_range|].
      reflexivity.
Qed.

(** C7. On a canvas at least 50 wide and 50 high, whatever values in
    [[0, 1)] the random source returns and whatever the clicks, every enemy
    of the game is a 50x50 rectangle with [0 <= x <= W-50] and
    [0 <= y <= H-50]. *)
Theorem spawned_enemies_fit (el : Element) (evs : list Event) (wd : World)
    (Hw : 50 <= width el) (Hh : 50 <= height el)
    (Hrandom : Forall random_ok evs)
    (Hrun : run (init el) evs = Some wd) :
  forall r, r ∈ enemies (game wd) ->
    0 <= x (xy (rect (obj (store wd) r))) <= width el - 50 /\
    0 <= y (xy (rect (obj (store wd) r))) <= height el - 50 /\
    wh (rect (obj (store wd) r)) = {| w := 50; h := 50 |}.
Proof.
  intros r Hin.
  assert (Hinv : placed_inv el wd).
  { apply (run_invariant (placed_inv el) random_ok
             (fun wd ev wd' => placed_inv_step el wd ev wd' Hw Hh) evs (init el) wd);
      auto using placed_inv_init. }
  apply Hinv, Hin.
Qed.

Lemma spawned_enemies_fit_witness :
  50 <= width (canvas_el 500 500) /\
  50 <= height (canvas_el 500 500) /\
  Forall random_ok mixed_events /\
  run (init (canvas_el 500 500)) mixed_events =
    Some (after (init (canvas_el 500 500)) mixed_events) /\
  forall r, r ∈ enemies (game (after (init (canvas_el 500 500)) mixed_events)) ->
    0 <= x (xy (rect (obj (store (after (init (canvas_el 500 500)) mixed_events)) r)))
      <= width (canvas_el 500 500) - 50 /\
    0 <= y (xy (rect (obj (store (after (init (canvas_el 500 500)) mixed_events)) r)))
      <= height (canvas_el 500 500) - 50 /\
    wh (rect (obj (store (after (init (canvas_el 500 500)) mixed_events)) r)) =
      {| w := 50; h := 50 |}.
Proof.
  assert (Hw : 50 <= width (canvas_el 500 500)) by (simpl; lra).
  assert (Hh : 50 <= height (canvas_el 500 500)) by (simpl; lra).
  assert (Hrandom : Forall random_ok mixed_events).
  { repeat constructor; simpl; lra. }
  assert (Hrun : run (init (canvas_el 500 500)) mixed_events =
                 Some (after (init (canvas_el 500 500)) mixed_events))
    by now vm_compute.
  split; [exact Hw|]. split; [exact Hh|]. split; [exact Hrandom|].
  split; [exact Hrun|].
  exact (spawned_enemies_fit (canvas_el 500 500) mixed_events
           (after (init (canvas_el 500 500)) mixed_events) Hw Hh Hrandom Hrun).
Defined.

(** The positions of the three enemies of the sample run. *)
Example mixed_events_positions :
  map (fun r => xy (rect (obj (store (after (init (canvas_el 500 500)) mixed_events)) r)))
      (enemies (game (after (init (canvas_el 500 500)) mixed_events))) =
  [ {| x := 0 * (500 - 50); y := 0.99 * (500 - 50) |};
    {| x := 0.5 * (500 - 50); y := 0.5 * (500 - 50) |};
    {| x := 0.25 * (500 - 50); y := 0.75 * (500 - 50) |} ].
Proof. reflexivity. Qed.

(** ** The difficulty curve *)

Lemma Qlt_bool_iff (a b : Q) : Qlt_bool a b = true <-> a < b.
Proof.
  unfold Qlt_bool. rewrite negb_true_iff, <- not_true_iff_false, Qle_bool_iff.
  split; [apply Qnot_le_lt | apply Qlt_not_le].
Qed.

Lemma Qlt_bool_false_iff (a b : Q) : Qlt_bool a b = false <-> b <= a.
Proof. unfold Qlt_bool. now rewrite negb_false_iff, Qle_bool_iff. Qed.

Lemma next_delay_decays (d : Q) : 100 < d * 0.98 -> next_delay d = d * 0.98.
Proof. intros Hd. unfold next_delay. now rewrite (proj2 (Qlt_bool_iff _ _) Hd). Qed.

Lemma next_delay_stays (d : Q) : d * 0.98 <= 100 -> next_delay d = d.
Proof. intros Hd. unfold next_delay. now rewrite (proj2 (Qlt_bool_false_iff _ _) Hd). Qed.

Lemma next_delay_cases (d : Q) :
  (100 < d * 0.98 /\ next_delay d = d * 0.98) \/ (d * 0.98 <= 100 /\ next_delay d = d).
Proof.
  destruct (Qlt_le_dec 100 (d * 0.98)) as [Hd|Hd].
  - left. split; [assumption | now apply next_delay_decays].
  - right. split; [assumption | now apply next_delay_stays].
Qed.

Lemma next_delay_compat (a b : Q) : a == b -> next_delay a == next_delay b.
Proof.
  intros Hab.
  destruct (next_delay_cases a) as [[Ha ->]|[Ha ->]].
  - rewrite next_delay_decays; [now rewrite Hab | now rewrite <- Hab].
  - rewrite next_delay_stays; [assumption | now rewrite <- Hab].
Qed.

(** One timeout applies the recurrence once to [1000*game.difficulty]. *)
Lemma delay_timeout rx ry st game :
  delay (snd (fst (timeout rx ry st game))) == next_delay (delay game).
Proof.
  unfold delay, next_delay. rewrite timeout_difficulty.
  destruct (Qlt_bool 100 (1000 * difficulty game * 0.98)); ring.
Qed.

Lemma delay_mouseclick st e game : delay (mouseclick st e game) = delay game.
Proof.
  unfold delay. now destruct (mouseclick_frame st e game) as (_ & -> & _).
Qed.

Lemma delay_step wd ev wd' :
  step wd ev = Some wd' ->
  delay (game wd') ==
  match ev with Click _ => delay (game wd) | Timeout _ _ => next_delay (delay (game wd)) end.
Proof.
  intros Hstep. destruct ev as [e|rx ry].
  - rewrite step_click in Hstep. injection Hstep as <-. simpl.
    now rewrite delay_mouseclick.
  - rewrite step_timeout in Hstep. destruct (timers wd); [discriminate|].
    injection Hstep as <-. simpl. apply delay_timeout.
Qed.

Lemma delay_run evs : forall wd wd' n,
  delay (game wd) == delay_seq n -> run wd evs = Some wd' ->
  delay (game wd') == delay_seq (ticks evs + n).
Proof.
  induction evs as [|ev evs IH]; intros wd wd' n Hn Hrun; simpl in Hrun.
  - injection Hrun as <-. exact Hn.
  - destruct (step wd ev) as [wd1|] eqn:Hstep; [|discriminate].
    apply delay_step in Hstep. destruct ev as [e|rx ry].
    + apply (IH wd1 wd' n); [now rewrite Hstep | assumption].
    + replace (ticks (Timeout rx ry :: evs) + n)%nat with (ticks evs + S n)%nat
        by (simpl; lia).
      apply (IH wd1 wd' (S n)); [|assumption].
      rewrite Hstep. now apply next_delay_compat.
Qed.

Lemma delay_seq_above_floor (n : nat) : 100 < delay_seq n.
Proof.
  induction n as [|n IH]; [reflexivity|].
  change (delay_seq (S n)) with (next_delay (delay_seq n)).
  destruct (next_delay_cases (delay_seq n)) as [[Hd ->]|[Hd ->]]; assumption.
Qed.

Lemma delay_seq_non_increasing (n : nat) : delay_seq (S n) <= delay_seq n.
Proof.
  change (delay_seq (S n)) with (next_delay (delay_seq n)).
  pose proof (delay_seq_above_floor n) as Hn.
  destruct (next_delay_cases (delay_seq n)) as [[Hd ->]|[Hd ->]]; lra.
Qed.

Lemma delay_seq_stops (n m : nat) :
  delay_seq n * 0.98 <= 100 -> (n <= m)%nat -> delay_seq m = delay_seq n.
Proof.
  intros Hn Hle. induction Hle as [|m Hle IH]; [reflexivity|].
  change (delay_seq (S m)) with (next_delay (delay_seq m)).
  rewrite IH. now apply next_delay_stays.
Qed.

(** The sequence really stops: the 113th decay is the last one. *)
Lemma delay_seq_last_decay :
  100 < delay_seq 112 * 0.98 /\ delay_seq 113 * 0.98 <= 100.
Proof.
  split.
  - apply Qlt_bool_iff. now vm_compute.
  - apply Qle_bool_iff. now vm_compute.
Qed.

(** The literal [0.98] is the rational 49/50, and the first elements of
    the sequence are 1000, 980 and 960.4. *)
Example delay_seq_first :
  0.98 == 49 # 50 /\
  delay_seq 0 == 1000 /\ delay_seq 1 == 980 /\ delay_seq 2 == 960.4.
Proof. repeat split. Qed.

(** ** The same curve in binary64 arithmetic *)

(** The rounding at work: the literal [0.98], a tie, and the third delay,
    which is not the exact 960.4. *)
Example binary64_round_samples :
  Binary64.round 0.98 == 8827055269646172 # (2 ^ 53) /\
  Binary64.round (inject_Z (2 ^ 53 + 1)) == inject_Z (2 ^ 53) /\
  Binary64.round (inject_Z (2 ^ 53 + 3)) == inject_Z (2 ^ 53 + 4) /\
  Binary64.delay_seq 1 == 980 /\
  Binary64.delay_seq 2 == 4223883869264281 # (2 ^ 42) /\
  ~ Binary64.delay_seq 2 == 960.4.
Proof. now vm_compute. Qed.

Lemma iter_shift {A : Type} (f : A -> A) (k : nat) (a : A) :
  Nat.iter k f (f a) = Nat.iter (S k) f a.
Proof. induction k as [|k IH]; simpl; [reflexivity | now rewrite IH]. Qed.

Lemma binary64_check_run_sound (n : nat) : forall d64 dx k,
  binary64_check_run n d64 dx = true -> (k < n)%nat ->
  binary64_check (Nat.iter k Binary64.decay d64) (Nat.iter k next_delay dx) = true.
Proof.
  induction n as [|n IH]; intros d64 dx k Hrun Hk; [lia|].
  simpl in Hrun. apply andb_true_iff in Hrun as [Hhere Hrest].
  destruct k as [|k]; [exact Hhere|].
  rewrite <- !iter_shift. apply IH; [exact Hrest | lia].
Qed.

Lemma binary64_checked (n : nat) :
  (n <= 113)%nat -> binary64_check (Binary64.difficulty_seq n) (delay_seq n) = true.
Proof.
  intros Hn.
  apply (binary64_check_run_sound 114 1 1000 n); [now vm_compute | lia].
Qed.

Lemma binary64_stops (n : nat) :
  (113 <= n)%nat -> Binary64.difficulty_seq n = Binary64.difficulty_seq 113.
Proof.
  assert (Hlast : Binary64.decay (Binary64.difficulty_seq 113) = Binary64.difficulty_seq 113)
    by now vm_compute.
  intros Hn. induction Hn as [|n Hn IH]; [reflexivity|].
  change (Binary64.difficulty_seq (S n)) with (Binary64.decay (Binary64.difficulty_seq n)).
  now rewrite IH.
Qed.

(** X12. With every product rounded as in the code, the test of [timeout]
    takes at each timeout the branch it takes in exact arithmetic, and the
    delay stays above 100, never grows, and is within [2^-41] of the exact
    one. *)
Lemma binary64_delay_sequence (n : nat) :
  Binary64.decays n = Qlt_bool 100 (delay_seq n * 0.98) /\
  100 < Binary64.delay_seq n /\
  Binary64.delay_seq (S n) <= Binary64.delay_seq n /\
  Qabs (Binary64.delay_seq n - delay_seq n) <= 1 # 2 ^ 41.
Proof.
  assert (Hchecked : binary64_check (Binary64.difficulty_seq n) (delay_seq n) = true).
  { destruct (decide (n <= 113)%nat) as [Hn|Hn]; [now apply binary64_checked|].
    rewrite (binary64_stops n) by lia.
    rewrite (delay_seq_stops 113 n (proj2 delay_seq_last_decay)) by lia.
    now apply binary64_checked. }
  unfold binary64_check in Hchecked.
  rewrite !andb_true_iff, eqb_true_iff, Qlt_bool_iff, !Qle_bool_iff in Hchecked.
  exact (conj (proj1 (proj1 (proj1 Hchecked)))
           (conj (proj2 (proj1 (proj1 Hchecked)))
              (conj (proj2 (proj1 Hchecked)) (proj2 Hchecked)))).
Qed.


(** * Further properties of the code *)

(** ** [find_first] *)

(** X1. [find_first] returns [-1] exactly when no entry of the array is the
    element, and otherwise the least index that holds it. *)
Theorem find_first_contract (array : list ref) (element : ref) :
  (find_first array element = (-1)%Z <-> element ∉ array) /\
  (forall i : nat,
     find_first array element = Z.of_nat i <->
     array !! i = Some element /\ forall j, (j < i)%nat -> array !! j <> Some element).
Proof.
  unfold find_first.
  destruct (list_find (fun e => e = element) array) as [[k r]|] eqn:Hfind.
  - apply list_find_Some in Hfind as (Hk & -> & Hmin). split.
    + split; [lia|]. intros Hnot. exfalso. apply Hnot.
      apply list_elem_of_lookup. now exists k.
    + intros i. split.
      * intros Heq. apply Nat2Z.inj in Heq as <-. split; [assumption|].
        intros j Hj Hjr. exact (Hmin j element Hjr Hj eq_refl).
      * intros [Hi Hfirst]. f_equal.
        destruct (Nat.lt_trichotomy k i) as [Hlt|[Heq|Hgt]]; [|assumption|].
        -- exfalso. exact (Hfirst k Hlt Hk).
        -- exfalso. exact (Hmin i element Hi Hgt eq_refl).
  - apply list_find_None in Hfind. rewrite Forall_forall in Hfind. split.
    + split; [|reflexivity]. intros _ Hin. exact (Hfind element Hin eq_refl).
    + intros i. split; [lia|]. intros [Hi _]. exfalso.
      apply (Hfind element); [|reflexivity].
      apply list_elem_of_lookup. now exists i.
Qed.

(** ** [element_coords] *)

Lemma element_coords_loop_acc : forall (el : Element) (ax ay : Q),
  x (element_coords_loop el ax ay) == ax + Qsum (map fst (offset_chain el)) /\
  y (element_coords_loop el ax ay) == ay + Qsum (map snd (offset_chain el)).
Proof.
  fix IH 1. intros [left top [parent|] wd hg] ax ay; simpl.
  - destruct (IH parent (ax + left) (ay + top)) as [Hx Hy].
    rewrite Hx, Hy. split; ring.
  - split; ring.
Qed.

(** X2. [element_coords] adds up the offsets of the element and of its
    offset ancestors, except those of the last element of the chain: an
    element without offset parent is at (0, 0) whatever its own offsets. *)
Theorem element_coords_sum (el : Element) :
  x (element_coords el) == Qsum (map fst (offset_chain el)) /\
  y (element_coords el) == Qsum (map snd (offset_chain el)) /\
  (offsetParent el = None -> element_coords el = {| x := 0; y := 0 |}).
Proof.
  destruct (element_coords_loop_acc el 0 0) as [Hx Hy].
  split; [unfold element_coords; rewrite Hx; ring|].
  split; [unfold element_coords; rewrite Hy; ring|].
  intros Hroot. unfold element_coords.
  destruct el as [left top parent wd hg]. simpl in *. now rewrite Hroot.
Qed.

Lemma element_coords_sum_witness :
  offsetParent root_el = None /\ element_coords root_el = {| x := 0; y := 0 |}.
Proof.
  split; [reflexivity|].
  apply (element_coords_sum root_el). reflexivity.
Defined.

(** ** Moving the canvas *)

Lemma hasCollided_compat (this : Rect) (p p' : XY) :
  x p == x p' -> y p == y p' -> hasCollided this p = hasCollided this p'.
Proof.
  intros Hx Hy.
  destruct (hasCollided this p) eqn:Hp, (hasCollided this p') eqn:Hp'; try reflexivity.
  - apply hasCollided_true in Hp. rewrite Hx, Hy in Hp.
    apply hasCollided_true in Hp. congruence.
  - apply hasCollided_true in Hp'. rewrite <- Hx, <- Hy in Hp'.
    apply hasCollided_true in Hp'. congruence.
Qed.

(** Two games with the same enemies and running flag, clicked at points
    that hit the same enemies, are left with the same enemies and the same
    gain in points. *)
Lemma mouseclick_loop_ext fuel st e e' : forall i collided game game',
  enemies game = enemies game' ->
  state game = state game' ->
  (forall r, hit st game e r = hit st game' e' r) ->
  enemies (mouseclick_loop fuel st e i collided game) =
    enemies (mouseclick_loop fuel st e' i collided game') /\
  (points (player (mouseclick_loop fuel st e i collided game)) - points (player game) =
   points (player (mouseclick_loop fuel st e' i collided game')) - points (player game'))%Z.
Proof.
  induction fuel as [|fuel IH]; intros i collided game game' Henemies Hstate Hhit.
  - simpl. split; [assumption | lia].
  - rewrite !mouseclick_loop_S, <- Henemies, <- Hstate.
    destruct (bool_decide (i < length (enemies game))%nat && negb collided && state game);
      [|split; [assumption | lia]].
    destruct (enemies game !! i) as [enemy|]; [|split; [assumption | lia]].
    rewrite <- Hhit. destruct (hit st game e enemy).
    + rewrite !mouseclick_loop_collided. simpl. split; [reflexivity | lia].
    + now apply IH.
Qed.

(** X3. The outcome of a click depends only on where the click falls
    relative to the canvas: if the canvas is moved in the page and the
    pointer is moved by as much, the same enemy is removed and the same
    point is scored. *)
Theorem mouseclick_translation (st : Store) (e e' : MouseEvent) (game game' : Game)
    (dx dy : Q)
    (Henemies : enemies game' = enemies game)
    (Hstate : state game' = state game)
    (Hcanvas_x : x (element_coords (element (canvas game'))) ==
                 x (element_coords (element (canvas game))) + dx)
    (Hcanvas_y : y (element_coords (element (canvas game'))) ==
                 y (element_coords (element (canvas game))) + dy)
    (Hclick_x : clientX e' == clientX e + dx)
    (Hclick_y : clientY e' == clientY e + dy) :
  enemies (mouseclick st e' game') = enemies (mouseclick st e game) /\
  (points (player (mouseclick st e' game')) - points (player game') =
   points (player (mouseclick st e game)) - points (player game))%Z.
Proof.
  unfold mouseclick. rewrite Henemies.
  apply mouseclick_loop_ext; [assumption | assumption |].
  intros r. unfold hit, click_xy. apply hasCollided_compat; simpl.
  - rewrite Hcanvas_x, Hclick_x. ring.
  - rewrite Hcanvas_y, Hclick_y. ring.
Qed.

Lemma mouseclick_translation_witness :
  let moved :=
    {| canvas := {| element := moved_canvas_el |}; enemies := [0; 1]%nat;
       player := {| points := 7 |}; difficulty := 1; state := true |} in
  let e' := {| clientX := 173; clientY := 148 |} in
  enemies (mouseclick two_enemies e' moved) =
    enemies (mouseclick two_enemies click_both (two_enemies_game true)) /\
  (points (player (mouseclick two_enemies e' moved)) - points (player moved) =
   points (player (mouseclick two_enemies click_both (two_enemies_game true)))
   - points (player (two_enemies_game true)))%Z.
Proof.
  intros moved e'.
  apply (mouseclick_translation two_enemies click_both e' (two_enemies_game true) moved 40 15);
    reflexivity.
Defined.

(** ** Score and number of enemies *)

Lemma timeout_player rx ry st game :
  player (snd (fst (timeout rx ry st game))) = player game.
Proof. unfold timeout. simpl. now destruct (bool_decide _). Qed.

(** A click keeps the sum of the score and the number of enemies. *)
Lemma mouseclick_conserves st e game :
  (points (player (mouseclick st e game)) + Z.of_nat (length (enemies (mouseclick st e game))) =
   points (player game) + Z.of_nat (length (enemies game)))%Z.
Proof.
  destruct (state game) eqn:Hstate.
  - destruct (mouseclick_scan st e game Hstate)
      as [[_ ->] | (before & r & after & Hsplit & _ & _ & ->)]; [reflexivity|].
    rewrite Hsplit. simpl. rewrite !length_app. simpl. lia.
  - now rewrite mouseclick_not_running.
Qed.

Lemma step_conserves wd ev wd' :
  step wd ev = Some wd' ->
  (points (player (game wd')) + Z.of_nat (length (enemies (game wd'))) =
   points (player (game wd)) + Z.of_nat (length (enemies (game wd)))
   + Z.of_nat (ticks [ev]))%Z.
Proof.
  intros Hstep. destruct ev as [e|rx ry].
  - rewrite step_click in Hstep. injection Hstep as <-. simpl.
    rewrite mouseclick_conserves. lia.
  - rewrite step_timeout in Hstep. destruct (timers wd); [discriminate|].
    injection Hstep as <-. simpl.
    rewrite timeout_player, timeout_enemies, length_app. simpl. lia.
Qed.

Lemma run_conserves evs : forall wd wd',
  run wd evs = Some wd' ->
  (points (player (game wd')) + Z.of_nat (length (enemies (game wd'))) =
   points (player (game wd)) + Z.of_nat (length (enemies (game wd)))
   + Z.of_nat (ticks evs))%Z.
Proof.
  induction evs as [|ev evs IH]; intros wd wd' Hrun; simpl in Hrun.
  - injection Hrun as <-. simpl. lia.
  - destruct (step wd ev) as [wd1|] eqn:Hstep; [|discriminate].
    rewrite (IH wd1 wd' Hrun), (step_conserves wd ev wd1 Hstep).
    destruct ev; simpl; lia.
Qed.

(** X4. Every enemy ever spawned is either still on the board or was
    scored: after any run of the game, the score plus the number of live
    enemies is the number of timeouts that have fired. *)
Theorem score_conservation (el : Element) (evs : list Event) (wd : World)
    (Hrun : run (init el) evs = Some wd) :
  (points (player (game wd)) + Z.of_nat (length (enemies (game wd))) =
   Z.of_nat (ticks evs))%Z.
Proof. rewrite (run_conserves evs (init el) wd Hrun). simpl. lia. Qed.

Lemma score_conservation_witness :
  run (init (canvas_el 500 500)) mixed_events =
    Some (after (init (canvas_el 500 500)) mixed_events) /\
  (points (player (game (after (init (canvas_el 500 500)) mixed_events)))
   + Z.of_nat (length (enemies (game (after (init (canvas_el 500 500)) mixed_events)))) =
   Z.of_nat (ticks mixed_events))%Z.
Proof.
  assert (Hrun : run (init (canvas_el 500 500)) mixed_events =
                 Some (after (init (canvas_el 500 500)) mixed_events))
    by now vm_compute.
  split; [exact Hrun|].
  exact (score_conservation (canvas_el 500 500) mixed_events _ Hrun).
Defined.

(** ** The end of the game *)

Lemma over_inv_step wd ev wd' :
  timer_inv wd -> over_inv wd -> step wd ev = Some wd' -> over_inv wd'.
Proof.
  intros (Htimers & _ & _) [Hrunning Hover] Hstep. destruct ev as [e|rx ry].
  - rewrite step_click in Hstep. injection Hstep as <-. unfold over_inv. simpl.
    destruct (state (game wd)) eqn:Hstate.
    + destruct (mouseclick_frame (store wd) e (game wd)) as (_ & _ & -> & Hle & _).
      rewrite Hstate. split; [intros _; specialize (Hrunning eq_refl); lia | discriminate].
    + rewrite (mouseclick_not_running _ _ _ Hstate), Hstate.
      split; [discriminate | assumption].
  - rewrite step_timeout in Hstep.
    destruct (timers wd) as [|pending]; [discriminate|].
    injection Hstep as <-. unfold over_inv. simpl.
    rewrite timeout_state, timeout_enemies, length_app. simpl.
    destruct (state (game wd)); [|discriminate].
    specialize (Hrunning eq_refl).
    destruct (decide (length (enemies (game wd)) + 1 < 20)%nat) as [Hlt|Hge].
    + rewrite bool_decide_eq_true_2 by assumption. split; [lia | discriminate].
    + rewrite bool_decide_eq_false_2 by assumption. split; [discriminate | lia].
Qed.

Lemma reachable_over_inv el wd : reachable el wd -> timer_inv wd /\ over_inv wd.
Proof.
  intros [evs Hrun].
  apply (run_invariant (fun wd => timer_inv wd /\ over_inv wd) (fun _ => True)) with
    (evs := evs) (wd := init el); auto using Forall_any_event.
  - intros wd0 ev wd1 _ [Htimer Hover] Hstep. split.
    + exact (timer_inv_step wd0 ev wd1 Htimer Hstep).
    + exact (over_inv_step wd0 ev wd1 Htimer Hover Hstep).
  - split; [apply timer_inv_init|]. unfold over_inv. simpl. split; [lia | discriminate].
Qed.

(** X5. In every world the event loop can reach, the game is over exactly
    when 20 enemies are on the board; so a game that is over has seen at
    least 20 timeouts, and its final score is their number minus 20. *)
Theorem game_over_iff_20 (el : Element) (evs : list Event) (wd : World)
    (Hrun : run (init el) evs = Some wd) :
  (state (game wd) = false <-> length (enemies (game wd)) = 20%nat) /\
  (state (game wd) = false ->
   (20 <= ticks evs)%nat /\ points (player (game wd)) = (Z.of_nat (ticks evs) - 20)%Z).
Proof.
  assert (Hreach : reachable el wd) by now exists evs.
  destruct (reachable_over_inv el wd Hreach) as [(_ & _ & _) [Hrunning Hover]].
  pose proof (run_conserves evs (init el) wd Hrun) as Hsum. simpl in Hsum.
  assert (Hpoints : forall wd0 evs0, run (init el) evs0 = Some wd0 ->
                      (0 <= points (player (game wd0)))%Z).
  { intros wd0 evs0 Hrun0.
    apply (run_invariant (fun wd => 0 <= points (player (game wd)))%Z (fun _ => True))
      with (evs := evs0) (wd := init el); auto using Forall_any_event; [|simpl; lia].
    intros wd1 ev wd2 _ Hpos Hstep. destruct ev as [e|rx ry].
    - rewrite step_click in Hstep. injection Hstep as <-. simpl.
      pose proof (mouseclick_conserves (store wd1) e (game wd1)) as Hc.
      destruct (mouseclick_frame (store wd1) e (game wd1)) as (_ & _ & _ & Hle & _). lia.
    - rewrite step_timeout in Hstep. destruct (timers wd1); [discriminate|].
      injection Hstep as <-. simpl. now rewrite timeout_player. }
  split.
  - split; [exact Hover|]. intros Hlen.
    destruct (state (game wd)); [specialize (Hrunning eq_refl); lia | reflexivity].
  - intros Hstopped. specialize (Hover Hstopped). specialize (Hpoints wd evs Hrun).
    split; lia.
Qed.

Lemma game_over_iff_20_witness :
  run (init (canvas_el 500 500)) (ticks_only 20) = Some world_20 /\
  (state (game world_20) = false <-> length (enemies (game world_20)) = 20%nat) /\
  (state (game world_20) = false ->
   (20 <= ticks (ticks_only 20))%nat /\
   points (player (game world_20)) = (Z.of_nat (ticks (ticks_only 20)) - 20)%Z).
Proof.
  assert (Hrun : run (init (canvas_el 500 500)) (ticks_only 20) = Some world_20)
    by now vm_compute.
  split; [exact Hrun|].
  exact (game_over_iff_20 (canvas_el 500 500) (ticks_only 20) world_20 Hrun).
Defined.

(** X6. Once the game is over nothing happens any more: from a reachable
    world whose game is not running, the only events that can occur are
    clicks, and they leave the world (store, game and timers) as it is. *)
Theorem game_over_is_frozen (el : Element) (wd : World) (evs : list Event) (wd' : World)
    (Hreach : reachable el wd) (Hstopped : state (game wd) = false)
    (Hrun : run wd evs = Some wd') :
  wd' = wd /\ ticks evs = 0%nat.
Proof.
  assert (Hnone : forall rx ry, step wd (Timeout rx ry) = None).
  { intros rx ry. apply reachable_timer_inv in Hreach as (Htimers & _).
    rewrite Hstopped in Htimers. now rewrite step_timeout, Htimers. }
  revert Hrun. induction evs as [|ev evs IH]; simpl; intros Hrun.
  - injection Hrun as <-. now split.
  - destruct ev as [e|rx ry].
    + rewrite step_click, (mouseclick_not_running _ _ _ Hstopped) in Hrun.
      destruct wd as [st g t]. simpl in *. exact (IH Hrun).
    + now rewrite Hnone in Hrun.
Qed.

Lemma game_over_is_frozen_witness :
  reachable (canvas_el 500 500) world_20 /\
  state (game world_20) = false /\
  run world_20 [Click click_both; Click click_none] = Some world_20 /\
  world_20 = world_20 /\ ticks [Click click_both; Click click_none] = 0%nat.
Proof.
  assert (Hstopped : state (game world_20) = false) by now vm_compute.
  assert (Hrun : run world_20 [Click click_both; Click click_none] = Some world_20)
    by now vm_compute.
  split; [exact reachable_world_20|]. split; [exact Hstopped|]. split; [exact Hrun|].
  exact (game_over_is_frozen (canvas_el 500 500) world_20 _ world_20
           reachable_world_20 Hstopped Hrun).
Defined.

(** ** Enemy objects *)




Lemma first_hit_unique (P : ref -> bool) (b : list ref) : forall b' r r' a a',
  b ++ r :: a = b' ++ r' :: a' ->
  Forall (fun x => P x = false) b -> P r = true ->
  Forall (fun x => P x = false) b' -> P r' = true ->
  b = b' /\ r = r' /\ a = a'.
Proof.
  induction b as [|c b IH]; intros [|c' b'] r r' a a' Heq Hb Hr Hb' Hr'; simpl in Heq.
  - injection Heq as -> ->. now repeat split.
  - injection Heq as -> _. apply Forall_cons in Hb' as [Hc _]. congruence.
  - injection Heq as -> _. apply Forall_cons in Hb as [Hc _]. congruence.
  - injection Heq as -> Heq.
    apply Forall_cons in Hb as [_ Hb]. apply Forall_cons in Hb' as [_ Hb'].
    destruct (IH b' r r' a a' Heq Hb Hr Hb' Hr') as (-> & -> & ->). now repeat split.
Qed.



(** ** The simpler variant has no cap *)

Lemma simple_mouseclick_length st e g :
  (length (Simple.enemies (Simple.mouseclick st e g)) <= length (Simple.enemies g) /\
   length (Simple.enemies g) <= S (length (Simple.enemies (Simple.mouseclick st e g))))%nat.
Proof.
  set (game := {| canvas := Simple.canvas g; enemies := Simple.enemies g;
                  player := {| points := 0 |}; difficulty := 1; state := true |}).
  assert (Hagree : Simple.enemies (Simple.mouseclick st e g) = enemies (mouseclick st e game)).
  { destruct g as [c es]. unfold Simple.mouseclick, mouseclick.
    change {| Simple.canvas := c; Simple.enemies := es |} with (globals_of game).
    now rewrite simple_mouseclick_loop_agrees. }
  rewrite Hagree.
  destruct (mouseclick_scan st e game eq_refl)
    as [[_ ->] | (before & r & after & Hsplit & _ & _ & ->)].
  - simpl. lia.
  - simpl in *. rewrite Hsplit, !length_app. simpl. lia.
Qed.

Lemma simple_run_length evs : forall wd,
  (length (Simple.enemies (SimpleLoop.globals (SimpleLoop.run wd evs)))
     <= length (Simple.enemies (SimpleLoop.globals wd)) + SimpleLoop.spawns evs /\
   length (Simple.enemies (SimpleLoop.globals wd)) + SimpleLoop.spawns evs
     <= length (Simple.enemies (SimpleLoop.globals (SimpleLoop.run wd evs)))
        + SimpleLoop.clicks evs)%nat.
Proof.
  induction evs as [|ev evs IH]; intros wd; simpl; [lia|].
  destruct (IH (SimpleLoop.step wd ev)) as [Hup Hlow].
  fold (SimpleLoop.run (SimpleLoop.step wd ev) evs).
  destruct ev as [e|rx ry]; simpl in *.
  - destruct (simple_mouseclick_length (SimpleLoop.store wd) e (SimpleLoop.globals wd)). lia.
  - rewrite length_app in *. simpl in *. lia.
Qed.

Lemma simple_spawns_replicate n rx ry :
  SimpleLoop.spawns (replicate n (SimpleLoop.Interval rx ry)) = n.
Proof. induction n as [|n IH]; simpl; [reflexivity | now rewrite IH]. Qed.

Lemma simple_clicks_replicate n rx ry :
  SimpleLoop.clicks (replicate n (SimpleLoop.Interval rx ry)) = 0%nat.
Proof. induction n as [|n IH]; simpl; [reflexivity | exact IH]. Qed.

(** X9. The simpler variant never ends and has no cap on the number of
    enemies: after any run, the enemies number at most the interval ticks
    so far and at least those ticks minus the clicks; [n] ticks without a
    click leave [n] enemies, for every [n]. *)
Theorem simple_variant_has_no_cap (el : Element) :
  (forall evs,
     (length (Simple.enemies (SimpleLoop.globals (SimpleLoop.run (SimpleLoop.initGame el) evs)))
        <= SimpleLoop.spawns evs /\
      SimpleLoop.spawns evs
        <= length (Simple.enemies
                     (SimpleLoop.globals (SimpleLoop.run (SimpleLoop.initGame el) evs)))
           + SimpleLoop.clicks evs)%nat) /\
  (forall n rx ry,
     length (Simple.enemies
               (SimpleLoop.globals
                  (SimpleLoop.run (SimpleLoop.initGame el)
                     (replicate n (SimpleLoop.Interval rx ry))))) = n).
Proof.
  split.
  - intros evs. destruct (simple_run_length evs (SimpleLoop.initGame el)) as [Hup Hlow].
    simpl in *. lia.
  - intros n rx ry.
    destruct (simple_run_length (replicate n (SimpleLoop.Interval rx ry))
                (SimpleLoop.initGame el)) as [Hup Hlow].
    rewrite simple_spawns_replicate, simple_clicks_replicate in *. simpl in *. lia.
Qed.

(** ** Edges of [timeout] *)

(** X10. [timeout] does not check the size of the canvas: on a canvas less
    than 50 wide (or high) every positive draw puts the new enemy at a
    negative abscissa (or ordinate), outside the canvas; on a canvas
    exactly 50 wide the abscissa is 0 whatever the draw. *)
Theorem timeout_on_small_canvas (rx ry : Q) (st : Store) (game : Game) :
  let enemy := obj (fst (fst (timeout rx ry st game))) (next st) in
  last (enemies (snd (fst (timeout rx ry st game)))) = Some (next st) /\
  (width (element (canvas game)) < 50 -> 0 < rx -> x (xy (rect enemy)) < 0) /\
  (height (element (canvas game)) < 50 -> 0 < ry -> y (xy (rect enemy)) < 0) /\
  (width (element (canvas game)) == 50 -> x (xy (rect enemy)) == 0).
Proof.
  intros enemy. unfold enemy. rewrite timeout_enemies, timeout_store. simpl.
  rewrite Nat.eqb_refl. simpl. split; [apply last_snoc|].
  split; [intros Hw Hrx; nra|]. split; [intros Hh Hry; nra|].
  intros Hw. rewrite Hw. ring.
Qed.

Lemma timeout_on_small_canvas_witness :
  width (element (canvas narrow_game)) < 50 /\ 0 < 0.5 /\
  x (xy (rect (obj (fst (fst (timeout 0.5 0.5 (store (init (canvas_el 30 40))) narrow_game)))
                   (next (store (init (canvas_el 30 40))))))) < 0.
Proof.
  assert (Hw : width (element (canvas narrow_game)) < 50) by reflexivity.
  assert (Hrx : 0 < 0.5) by reflexivity.
  split; [exact Hw|]. split; [exact Hrx|].
  exact (proj1 (proj2 (timeout_on_small_canvas 0.5 0.5
                         (store (init (canvas_el 30 40))) narrow_game)) Hw Hrx).
Defined.

(** ** The delays handed to [setTimeout] *)

Lemma delay_seq_antitone (n m : nat) : (n <= m)%nat -> delay_seq m <= delay_seq n.
Proof.
  intros Hle. induction Hle as [|m Hle IH]; [apply Qle_refl|].
  apply Qle_trans with (delay_seq m); [apply delay_seq_non_increasing | exact IH].
Qed.

(** X11. Whenever [timeout] reschedules itself in a game the event loop
    can reach, the delay it hands to [setTimeout] is above 100 and at most
    980 milliseconds. *)
Theorem rescheduled_delay_bounds (el : Element) (evs : list Event) (wd : World)
    (rx ry d : Q)
    (Hrun : run (init el) evs = Some wd)
    (Hagain : snd (timeout rx ry (store wd) (game wd)) = Some d) :
  100 < d /\ d <= 980.
Proof.
  rewrite timeout_again in Hagain.
  destruct (bool_decide _); [|discriminate]. injection Hagain as <-.
  fold (delay (snd (fst (timeout rx ry (store wd) (game wd))))).
  assert (Hseq : delay (snd (fst (timeout rx ry (store wd) (game wd)))) ==
                 delay_seq (S (ticks evs))).
  { rewrite delay_timeout. apply next_delay_compat.
    rewrite <- (Nat.add_0_r (ticks evs)).
    apply (delay_run evs (init el) wd 0%nat); [reflexivity | assumption]. }
  rewrite Hseq. split; [apply delay_seq_above_floor|].
  apply Qle_trans with (delay_seq 1); [apply delay_seq_antitone; lia|].
  now vm_compute.
Qed.

Lemma rescheduled_delay_bounds_witness :
  run (init (canvas_el 500 500)) (ticks_only 1) = Some world_1 /\
  snd (timeout 0.5 0.5 (store world_1) (game world_1)) = Some (1000 * (1 * 0.98 * 0.98)) /\
  100 < 1000 * (1 * 0.98 * 0.98) /\ 1000 * (1 * 0.98 * 0.98) <= 980.
Proof.
  assert (Hrun : run (init (canvas_el 500 500)) (ticks_only 1) = Some world_1)
    by now vm_compute.
  assert (Hagain : snd (timeout 0.5 0.5 (store world_1) (game world_1)) =
                   Some (1000 * (1 * 0.98 * 0.98))) by reflexivity.
  split; [exact Hrun|]. split; [exact Hagain|].
  exact (rescheduled_delay_bounds (canvas_el 500 500) (ticks_only 1) world_1
           0.5 0.5 _ Hrun Hagain).
Defined.

(** ** Painting a frame *)

(** Linear arithmetic with divisions by numerals. *)
Ltac lra_div :=
  unfold Qdiv in *;
  change (/ 2) with (1 # 2) in *; change (/ 6) with (1 # 6) in *;
  change (/ 20) with (1 # 20) in *;
  lra.

Lemma frame_enemy_ops (st : Store) (es : list ref) :
  flat_map (fun enemy => draw (obj st enemy)) es =
  fmap (fun r => DrawImage (img (obj st r))
                   (x (xy (rect (obj st r)))) (y (xy (rect (obj st r))))
                   (w (wh (rect (obj st r)))) (h (wh (rect (obj st r))))) es.
Proof. induction es as [|r es IH]; simpl; [reflexivity | now rewrite IH]. Qed.

Lemma fill_lines_texts this lines : forall offset op,
  op ∈ fill_lines this lines offset -> exists s tx ty, op = FillText s tx ty.
Proof.
  induction lines as [|s lines IH]; intros offset op Hin; simpl in Hin.
  - now apply elem_of_nil in Hin.
  - apply elem_of_cons in Hin as [->|Hin]; [now eexists _, _, _ | exact (IH _ _ Hin)].
Qed.

Lemma fill_lines_no_image this lines : forall offset,
  images (fill_lines this lines offset) = [].
Proof.
  induction lines as [|s lines IH]; intros offset; [reflexivity|]. apply IH.
Qed.

(** Which operations of a frame are not images and not texts: the white
    clearing of the canvas, and then either the colour of the score or the
    panel, colours and font of the game-over screen. *)
Lemma frame_ops (this : Canvas) (st : Store) (game : Game) (op : Op) :
  op ∈ frame this st game ->
  op ∈ refresh this \/
  (exists r, r ∈ enemies game /\
     op = DrawImage (img (obj st r))
            (x (xy (rect (obj st r)))) (y (xy (rect (obj st r))))
            (w (wh (rect (obj st r)))) (h (wh (rect (obj st r))))) \/
  (exists s tx ty, op = FillText s tx ty) \/
  (state game = true /\ op = SetFillStyle (mapColor game)) \/
  (state game = false /\
   (op = SetFillStyle (Css "#f00") \/ op = SetFillStyle (Css "#000") \/
    op = SetFont "20px sans-serif" \/
    op = FillRect (width (element this) / 6) (height (element this) / 6)
           (width (element this) * 4 / 6) (height (element this) * 4 / 6))).
Proof.
  unfold frame. rewrite frame_enemy_ops, !elem_of_app.
  intros [Hin|[Hin|Hin]]; [now left | |].
  - right. left. apply list_elem_of_fmap in Hin as (r & -> & Hr). now exists r.
  - right. right. destruct (state game).
    + unfold refreshPoints in Hin.
      apply elem_of_cons in Hin as [->|Hin]; [right; left; now split|].
      apply elem_of_cons in Hin as [->|Hin]; [left; now eexists _, _, _|].
      now apply elem_of_nil in Hin.
    + unfold loadGOScreen in Hin. apply elem_of_app in Hin as [Hin|Hin].
      * right. right. split; [reflexivity|].
        repeat (apply elem_of_cons in Hin as [->|Hin]; [tauto|]).
        now apply elem_of_nil in Hin.
      * left. exact (fill_lines_texts _ _ _ _ Hin).
Qed.

Lemma images_of_enemies (st : Store) (es : list ref) :
  Forall (fun r => img (obj st r) = "img/enemy.png" /\
                   wh (rect (obj st r)) = {| w := 50; h := 50 |}) es ->
  images (flat_map (fun enemy => draw (obj st enemy)) es) =
  fmap (fun r => DrawImage "img/enemy.png"
                   (x (xy (rect (obj st r)))) (y (xy (rect (obj st r)))) 50 50) es.
Proof.
  induction 1 as [|r es [Himg Hwh] _ IH]; [reflexivity|].
  simpl. rewrite Himg, Hwh. simpl. f_equal. exact IH.
Qed.

Lemma sprite_inv_step wd ev wd' :
  sprite_inv wd -> step wd ev = Some wd' -> sprite_inv wd'.
Proof.
  intros Hsprite Hstep. destruct ev as [e|rx ry].
  - rewrite step_click in Hstep. injection Hstep as <-. unfold sprite_inv. simpl.
    destruct (mouseclick_frame (store wd) e (game wd)) as (_ & _ & _ & _ & Hsub).
    intros r Hin. apply Hsprite, Hsub, Hin.
  - rewrite step_timeout in Hstep. destruct (timers wd); [discriminate|].
    injection Hstep as <-. unfold sprite_inv. simpl.
    rewrite timeout_enemies, timeout_store. simpl. intros r Hin.
    apply elem_of_app in Hin as [Hin|Hin].
    + destruct (Hsprite r Hin) as [Hlt Himg]. split; [lia|].
      now rewrite (proj2 (Nat.eqb_neq r (next (store wd)))) by lia.
    + apply list_elem_of_singleton in Hin as ->. split; [lia|].
      now rewrite Nat.eqb_refl.
Qed.

(** X13. A frame paints within the canvas: in a game reached with random
    draws in [[0, 1)] on a canvas at least 50 wide and high, every rectangle
    [frame] fills and every image it draws lies within the canvas, and the
    images are the sprite of the game, 50 by 50, one per enemy of the game. *)
Theorem frame_paints_inside (el : Element) (evs : list Event) (wd : World)
    (Hw : 50 <= width el) (Hh : 50 <= height el)
    (Hrandom : Forall random_ok evs)
    (Hrun : run (init el) evs = Some wd) :
  Forall (op_inside (width el) (height el))
    (frame (canvas (game wd)) (store wd) (game wd)) /\
  images (frame (canvas (game wd)) (store wd) (game wd)) =
    fmap (fun r => DrawImage "img/enemy.png"
                     (x (xy (rect (obj (store wd) r)))) (y (xy (rect (obj (store wd) r))))
                     50 50)
         (enemies (game wd)).
Proof.
  assert (Hplaced : placed_inv el wd).
  { apply (run_invariant (placed_inv el) random_ok
             (fun wd ev wd' => placed_inv_step el wd ev wd' Hw Hh) evs (init el) wd);
      auto using placed_inv_init. }
  assert (Hsprite : sprite_inv wd).
  { apply (run_invariant sprite_inv (fun _ => True)
             (fun wd ev wd' _ => sprite_inv_step wd ev wd') evs (init el) wd);
      auto using Forall_any_event.
    intros r Hin. now apply elem_of_nil in Hin. }
  destruct Hplaced as [Hcanvas Hplaced]. rewrite Hcanvas. split.
  - apply Forall_forall. intros op Hin.
    apply frame_ops in Hin
      as [Hin | [(r & Hr & ->) | [(s & tx & ty & ->) | [[_ ->] | [_ Hgo]]]]].
    + unfold refresh in Hin. simpl in Hin.
      apply elem_of_cons in Hin as [->|Hin]; [exact I|].
      apply elem_of_cons in Hin as [->|Hin]; [simpl; lra|].
      now apply elem_of_nil in Hin.
    + destruct (Hplaced r Hr) as (_ & Hx & Hy & Hwh). simpl. rewrite Hwh. simpl. lra.
    + exact I.
    + exact I.
    + destruct Hgo as [-> | [-> | [-> | ->]]]; try exact I. simpl. lra_div.
  - unfold frame, images. rewrite !List.filter_app.
    assert (Htail : List.filter
                      (fun op => match op with DrawImage _ _ _ _ _ => true | _ => false end)
                      (if state (game wd)
                       then refreshPoints {| element := el |} (game wd)
                       else loadGOScreen {| element := el |} (game wd)) = []).
    { destruct (state (game wd)); [reflexivity|].
      unfold loadGOScreen. rewrite List.filter_app.
      fold (images (fill_lines {| element := el |}
                      (split line_feed (game_over_text (game wd))) (-20))).
      now rewrite fill_lines_no_image. }
    rewrite Htail, app_nil_r. simpl.
    apply images_of_enemies. apply Forall_forall. intros r Hin.
    split; [apply Hsprite, Hin | apply Hplaced, Hin].
Qed.

Lemma frame_paints_inside_witness :
  50 <= width (canvas_el 500 500) /\
  50 <= height (canvas_el 500 500) /\
  Forall random_ok (ticks_only 20) /\
  run (init (canvas_el 500 500)) (ticks_only 20) = Some world_20 /\
  Forall (op_inside (width (canvas_el 500 500)) (height (canvas_el 500 500)))
    (frame (canvas (game world_20)) (store world_20) (game world_20)).
Proof.
  assert (Hw : 50 <= width (canvas_el 500 500)) by (simpl; lra).
  assert (Hh : 50 <= height (canvas_el 500 500)) by (simpl; lra).
  assert (Hrandom : Forall random_ok (ticks_only 20)).
  { repeat constructor; simpl; lra. }
  assert (Hrun : run (init (canvas_el 500 500)) (ticks_only 20) = Some world_20)
    by now vm_compute.
  split; [exact Hw|]. split; [exact Hh|]. split; [exact Hrandom|]. split; [exact Hrun|].
  exact (proj1 (frame_paints_inside (canvas_el 500 500) (ticks_only 20) world_20
                  Hw Hh Hrandom Hrun)).
Defined.

(** ** The colour of the score *)

Lemma mapColor_running (game : Game) (r g b : Q) :
  (length (enemies game) <= 19)%nat ->
  mapColor game = Rgb r g b ->
  r + g == 255 /\ 0 <= r <= 969 # 4 /\ 51 # 4 <= g <= 255 /\ b = 0.
Proof.
  intros Hlen Hcolour. unfold mapColor in Hcolour. injection Hcolour as <- <- <-.
  assert (Hq : 0 <= inject_Z (Z.of_nat (length (enemies game))) <= 19).
  { split.
    - change 0 with (inject_Z 0). rewrite <- Zle_Qle. lia.
    - change 19 with (inject_Z 19). rewrite <- Zle_Qle. lia. }
  revert Hq. generalize (inject_Z (Z.of_nat (length (enemies game)))).
  intros q Hq. repeat split; lra_div.
Qed.

(** X14. The score is never painted in pure red: in every reachable world,
    whenever [frame] sets a fill colour computed by [mapColor] the game is
    running, and the red and green channels add up to 255 with red at most
    242.25 and green at least 12.75. *)
Theorem score_colour_never_red (el : Element) (wd : World) (Hreach : reachable el wd) :
  forall r g b,
    SetFillStyle (Rgb r g b) ∈ frame (canvas (game wd)) (store wd) (game wd) ->
    state (game wd) = true /\
    r + g == 255 /\ 0 <= r <= 969 # 4 /\ 51 # 4 <= g <= 255 /\ b = 0.
Proof.
  intros r g b Hin.
  destruct (reachable_timer_inv el wd Hreach) as (_ & Hrunning & _).
  apply frame_ops in Hin
    as [Hin | [(r' & _ & Heq) | [(txt & tx & ty & Heq) | [[Hstate Heq] | [_ Hgo]]]]];
    try discriminate Heq.
  - unfold refresh in Hin.
    apply elem_of_cons in Hin as [Heq|Hin]; [discriminate Heq|].
    apply elem_of_cons in Hin as [Heq|Hin]; [discriminate Heq|].
    now apply elem_of_nil in Hin.
  - split; [assumption|].
    assert (Hcolour : mapColor (game wd) = Rgb r g b) by congruence.
    exact (mapColor_running (game wd) r g b (Hrunning Hstate) Hcolour).
  - destruct Hgo as [Heq | [Heq | [Heq | Heq]]]; discriminate Heq.
Qed.

Lemma score_colour_never_red_witness :
  reachable (canvas_el 500 500) world_19 /\
  SetFillStyle (Rgb (inject_Z 19 * 255 / 20) ((20 - inject_Z 19) * 255 / 20) 0)
    ∈ frame (canvas (game world_19)) (store world_19) (game world_19) /\
  inject_Z 19 * 255 / 20 <= 969 # 4.
Proof.
  assert (Hin : SetFillStyle (Rgb (inject_Z 19 * 255 / 20) ((20 - inject_Z 19) * 255 / 20) 0)
                ∈ frame (canvas (game world_19)) (store world_19) (game world_19)).
  { unfold frame. apply elem_of_app. right. apply elem_of_app. right.
    change (state (game world_19)) with true. cbv iota.
    apply elem_of_cons. left. reflexivity. }
  split; [exact reachable_world_19|]. split; [exact Hin|].
  exact (proj2 (proj1 (proj2 (proj2
           (score_colour_never_red (canvas_el 500 500) world_19 reachable_world_19 _ _ _ Hin))))).
Defined.

(** ** The game-over screen *)

Lemma split_no_sep (sep : ascii) (s : string) :
  occurs sep s = false -> split sep s = [s].
Proof.
  induction s as [|c s IH]; simpl; [reflexivity|].
  intros Hocc. apply orb_false_elim in Hocc as [Hc Hs].
  now rewrite Hc, (IH Hs).
Qed.

Lemma pretty_N_char_no_line_feed (d : N) :
  Ascii.eqb (pretty_N_char d) line_feed = false.
Proof. unfold pretty_N_char. now repeat case_match. Qed.

Lemma pretty_N_go_no_line_feed (n : N) : forall s,
  occurs line_feed (pretty_N_go n s) = occurs line_feed s.
Proof.
  induction (N.lt_wf_0 n) as [n _ IH]. intros s.
  destruct (decide (n = 0)%N) as [->|Hn]; [now rewrite pretty_N_go_0|].
  rewrite pretty_N_go_step by lia.
  rewrite IH by (apply N.div_lt; lia).
  simpl. now rewrite pretty_N_char_no_line_feed.
Qed.

(** The decimal string of an integer has no line feed. *)
Lemma pretty_Z_no_line_feed (z : Z) : occurs line_feed (pretty z) = false.
Proof.
  assert (Hpos : forall p : positive, occurs line_feed (pretty p) = false).
  { intros p. unfold pretty, pretty_positive, pretty, pretty_N.
    destruct (decide (N.pos p = 0)%N); [reflexivity|].
    now rewrite pretty_N_go_no_line_feed. }
  destruct z as [|p|p]; [reflexivity | apply Hpos |].
  unfold pretty, pretty_Z. simpl. apply Hpos.
Qed.

Lemma game_over_lines (s : string) :
  occurs line_feed s = false ->
  split line_feed
    (("¡Has perdido!" +:+ String line_feed "Los marcianos te han superado."
      +:+ String line_feed "Puntuación: ") +:+ s) =
  ["¡Has perdido!"; "Los marcianos te han superado."; "Puntuación: " +:+ s].
Proof.
  intros Hs. simpl. change (String.append EmptyString s) with s.
  now rewrite (split_no_sep _ _ Hs).
Qed.

(** X15. Whatever the score, the game-over screen is a red panel that is
    centred in the canvas and covers two thirds of its width and height,
    and exactly three lines of black text, 20 apart around the middle of
    the canvas, the last of which ends with the score in decimal. *)
Theorem game_over_screen (this : Canvas) (game : Game) :
  loadGOScreen this game =
    [SetFillStyle (Css "#f00");
     FillRect (width (element this) / 6) (height (element this) / 6)
              (width (element this) * 4 / 6) (height (element this) * 4 / 6);
     SetFillStyle (Css "#000");
     SetFont "20px sans-serif";
     FillText "¡Has perdido!"
       (width (element this) / 2) (height (element this) / 2 + -20);
     FillText "Los marcianos te han superado."
       (width (element this) / 2) (height (element this) / 2 + (-20 + 20));
     FillText ("Puntuación: " +:+ pretty (points (player game)))
       (width (element this) / 2) (height (element this) / 2 + (-20 + 20 + 20))] /\
  width (element this) / 6 + width (element this) * 4 / 6 / 2 == width (element this) / 2 /\
  height (element this) / 6 + height (element this) * 4 / 6 / 2 == height (element this) / 2 /\
  width (element this) * 4 / 6 == (2 # 3) * width (element this) /\
  height (element this) * 4 / 6 == (2 # 3) * height (element this).
Proof.
  split; [|repeat split; lra_div].
  unfold loadGOScreen, game_over_text.
  now rewrite (game_over_lines _ (pretty_Z_no_line_feed (points (player game)))).
Qed.

(** The screen of the sample game that is over, with its score of 0. *)
Example game_over_screen_sample :
  fmap (fun op => match op with FillText s _ _ => s | _ => EmptyString end)
       (drop 4 (loadGOScreen (canvas (game world_20)) (game world_20))) =
  ["¡Has perdido!"; "Los marcianos te han superado."; "Puntuación: 0"].
Proof. now vm_compute. Qed.

(** ** Clicks outside the canvas, and repeated clicks *)

(** X16. A click that falls outside the canvas never scores: in a game
    reached with random draws in [[0, 1)] on a canvas at least 50 wide and
    high, a click whose point lies left of, right of, above or below the
    canvas leaves the game unchanged. *)
Theorem click_outside_canvas (el : Element) (evs : list Event) (wd : World)
    (e : MouseEvent)
    (Hw : 50 <= width el) (Hh : 50 <= height el)
    (Hrandom : Forall random_ok evs)
    (Hrun : run (init el) evs = Some wd)
    (Houtside : x (click_xy el e) < 0 \/ width el < x (click_xy el e) \/
                y (click_xy el e) < 0 \/ height el < y (click_xy el e)) :
  mouseclick (store wd) e (game wd) = game wd.
Proof.
  assert (Hplaced : placed_inv el wd).
  { apply (run_invariant (placed_inv el) random_ok
             (fun wd ev wd' => placed_inv_step el wd ev wd' Hw Hh) evs (init el) wd);
      auto using placed_inv_init. }
  destruct Hplaced as [Hcanvas Hplaced].
  destruct (state (game wd)) eqn:Hstate; [|now apply mouseclick_not_running].
  destruct (mouseclick_scan (store wd) e (game wd) Hstate)
    as [[_ Hsame] | (before & r & after & Hsplit & _ & Hr & _)]; [exact Hsame|].
  exfalso. unfold hit in Hr. rewrite Hcanvas in Hr.
  change (element {| element := el |}) with el in Hr.
  apply hasCollided_true in Hr.
  destruct (Hplaced r) as (_ & Hx & Hy & Hwh).
  { rewrite Hsplit. apply elem_of_app. right. apply elem_of_cons. now left. }
  rewrite Hwh in Hr. change (w {| w := 50; h := 50 |}) with 50 in Hr.
  change (h {| w := 50; h := 50 |}) with 50 in Hr. lra.
Qed.

Lemma click_outside_canvas_witness :
  50 <= width (canvas_el 500 500) /\
  50 <= height (canvas_el 500 500) /\
  Forall random_ok (ticks_only 19) /\
  run (init (canvas_el 500 500)) (ticks_only 19) = Some world_19 /\
  x (click_xy (canvas_el 500 500) {| clientX := 3; clientY := 100 |}) < 0 /\
  mouseclick (store world_19) {| clientX := 3; clientY := 100 |} (game world_19) =
    game world_19.
Proof.
  assert (Hw : 50 <= width (canvas_el 500 500)) by (simpl; lra).
  assert (Hh : 50 <= height (canvas_el 500 500)) by (simpl; lra).
  assert (Hrandom : Forall random_ok (ticks_only 19)).
  { repeat constructor; simpl; lra. }
  assert (Hrun : run (init (canvas_el 500 500)) (ticks_only 19) = Some world_19)
    by now vm_compute.
  assert (Hleft : x (click_xy (canvas_el 500 500) {| clientX := 3; clientY := 100 |}) < 0)
    by reflexivity.
  split; [exact Hw|]. split; [exact Hh|]. split; [exact Hrandom|]. split; [exact Hrun|].
  split; [exact Hleft|].
  exact (click_outside_canvas (canvas_el 500 500) (ticks_only 19) world_19 _
           Hw Hh Hrandom Hrun (or_introl Hleft)).
Defined.

(** X17. Clicking twice on the same spot removes the two oldest enemies
    under it, one per click: if the first enemy hit is [r1] and the next
    one hit after it is [r2], two clicks leave the list without [r1] and
    [r2], the others in their order, and score two points. *)
Theorem two_clicks_same_spot (st : Store) (e : MouseEvent) (game : Game)
    (before mid after : list ref) (r1 r2 : ref)
    (Hrunning : state game = true)
    (Hsplit : enemies game = before ++ r1 :: mid ++ r2 :: after)
    (Hbefore : Forall (fun r => hit st game e r = false) before)
    (Hr1 : hit st game e r1 = true)
    (Hmid : Forall (fun r => hit st game e r = false) mid)
    (Hr2 : hit st game e r2 = true) :
  enemies (mouseclick st e game) = before ++ mid ++ r2 :: after /\
  enemies (mouseclick st e (mouseclick st e game)) = before ++ mid ++ after /\
  points (player (mouseclick st e (mouseclick st e game))) = (points (player game) + 2)%Z.
Proof.
  destruct (mouseclick_scan st e game Hrunning)
    as [[Hnone _] | (b & r & a & Hsplit1 & Hb & Hr & Hfirst)].
  { rewrite Hsplit in Hnone. apply Forall_app in Hnone as [_ Hnone].
    apply Forall_cons in Hnone as [Hnone _]. congruence. }
  rewrite Hsplit in Hsplit1.
  destruct (first_hit_unique (hit st game e) before b r1 r (mid ++ r2 :: after) a
              Hsplit1 Hbefore Hr1 Hb Hr) as (<- & <- & <-).
  rewrite Hfirst. split; [reflexivity|].
  set (game1 := scored game (before ++ mid ++ r2 :: after)).
  assert (Hsame : forall x, hit st game1 e x = hit st game e x) by reflexivity.
  destruct (mouseclick_scan st e game1 Hrunning)
    as [[Hnone _] | (b' & r' & a' & Hsplit2 & Hb' & Hr' & Hsecond)].
  { simpl in Hnone. rewrite app_assoc in Hnone. apply Forall_app in Hnone as [_ Hnone].
    apply Forall_cons in Hnone as [Hnone _]. rewrite Hsame in Hnone. congruence. }
  simpl in Hsplit2. rewrite app_assoc in Hsplit2.
  assert (Hprefix : Forall (fun x => hit st game1 e x = false) (before ++ mid)).
  { apply Forall_app. split; [exact Hbefore | exact Hmid]. }
  destruct (first_hit_unique (hit st game1 e) (before ++ mid) b' r2 r' after a'
              Hsplit2 Hprefix Hr2 Hb' Hr') as (<- & <- & <-).
  rewrite Hsecond. simpl. rewrite <- app_assoc. split; [reflexivity | lia].
Qed.

Lemma two_clicks_same_spot_witness :
  enemies (mouseclick two_enemies click_both (two_enemies_game true)) = [] ++ [] ++ [1%nat] /\
  enemies (mouseclick two_enemies click_both
             (mouseclick two_enemies click_both (two_enemies_game true))) = [] ++ [] ++ [] /\
  points (player (mouseclick two_enemies click_both
                    (mouseclick two_enemies click_both (two_enemies_game true)))) =
    (points (player (two_enemies_game true)) + 2)%Z.
Proof.
  apply (two_clicks_same_spot two_enemies click_both (two_enemies_game true)
           [] [] [] 0%nat 1%nat); try reflexivity; constructor.
Defined.

(** ** The difficulty curve as the code computes it *)







(** The last delay the code reaches, and a difficulty off the curve at
    which rounding decides: at the binary64 number nearest to 5/49 the
    rounded [1000*difficulty*0.98] is exactly 100, so the code does not
    decay, although the exact product is above 100. *)
Example binary64_edge_values :
  Binary64.delay_seq 113 == 897090725546721 # (2 ^ 43) /\
  Binary64.mul (Binary64.mul 1000 (Binary64.round (5 # 49))) (Binary64.round 0.98) == 100 /\
  Binary64.decay (Binary64.round (5 # 49)) = Binary64.round (5 # 49) /\
  100 < 1000 * Binary64.round (5 # 49) * 0.98.
Proof. now vm_compute. Qed.
